(** * Beam deflection solvers of [ridwan.py]: RK4 marching and the
      central-difference linear system

    The script computes the deflection of a beam under a Gaussian
    approximation of a point load with two methods.  This development
    embeds [gaussian_load], [rk4_step], [system_of_odes],
    [beam_deflection_rk4] and [beam_deflection_central_difference].

    Number model.  In the solvers a float64 is idealised as a real number:
    rounding, overflow and underflow are not modelled, so every statement
    about a solver's values is a statement in exact arithmetic.  NumPy
    arrays of floats are lists of reals, Python integers are [Z], and the
    exceptions a call can raise are values of [error].  The load function,
    whose behaviour on extreme arguments is decided by float64 arithmetic,
    is modelled a second time on binary64 values in [LoadModel.Float64]. *)

From Stdlib Require Import Reals Lra Lia ZArith ClassicalEpsilon.
From Stdlib Require Floats.
From stdpp Require Import base list strings.

Local Open Scope R_scope.

(** ** Exceptions and the result monad *)

Inductive error : Set :=
| ZeroDivisionError
| IndexError
| ValueError
| OverflowError
| LinAlgError.

Inductive result (A : Type) : Type :=
| Ok (a : A)
| Raise (e : error).
Arguments Ok {A} a.
Arguments Raise {A} e.

Definition bind {A B : Type} (m : result A) (k : A -> result B) : result B :=
  match m with
  | Ok a => k a
  | Raise e => Raise e
  end.

Notation "'let*' x ':=' m 'in' k" := (bind m (fun x => k))
  (at level 10, x name, m at level 100, k at level 200).

(** A Python [for] loop whose body may raise. *)
Fixpoint for_each {S I : Type} (body : S -> I -> result S) (items : list I) (s : S)
  : result S :=
  match items with
  | [] => Ok s
  | i :: rest => let* s' := body s i in for_each body rest s'
  end.

(** ** The NumPy operations the script uses *)

Module NumPy.

Abbreviation vec := (list R).
Abbreviation matrix := (list (list R)).

#[global] Instance R_inhabited : Inhabited R := populate 0.

(** Elementwise binary operation on 1-D arrays with NumPy broadcasting:
    equal shapes, or one operand of length one; any other pair of shapes
    raises [ValueError]. *)
Definition broadcast2 (op : R -> R -> R) (u v : vec) : result vec :=
  if (length u =? length v)%nat then Ok (zip_with op u v)
  else match u, v with
       | [a], _ => Ok (op a <$> v)
       | _, [b] => Ok ((fun a => op a b) <$> u)
       | _, _ => Raise ValueError
       end.

Definition add (u v : vec) : result vec := broadcast2 Rplus u v.

(** [c * v], [v / c] with a scalar [c]. *)
Definition smul (c : R) (v : vec) : vec := Rmult c <$> v.
Definition sdiv (v : vec) (c : R) : vec := (fun a => a / c) <$> v.

(** [ceil] on reals, from the standard library's [up] (the least integer
    strictly above). *)
Definition ceil (r : R) : Z := (1 - up (- r))%Z.

(** [np.arange(start, stop, step)]: [ceil((stop - start) / step)] samples
    [start + i * step]; a zero step raises.  The count is the ceiling of
    the exact quotient.  NumPy takes the ceiling of the float64 quotient of
    the rounded operands, which gives one sample more when rounding lifts
    the quotient just above an integer (as for [L = 0.2], [dx = 0.1]); on
    the script's constants both give 101.  Nothing below is stated about
    the count for other constants. *)
Definition arange (start stop step : R) : result vec :=
  if Req_EM_T step 0 then Raise ZeroDivisionError
  else
    let n := Z.to_nat (ceil ((stop - start) / step)) in
    Ok ((fun i => start + INR i * step) <$> seq 0 n).

(** [np.linspace(start, stop, num)]: [num] evenly spaced samples with both
    endpoints; a negative [num] raises, [num = 1] gives [[start]]. *)
Definition linspace (start stop : R) (num : Z) : result vec :=
  if (num <? 0)%Z then Raise ValueError
  else
    let n := Z.to_nat num in
    let step := (stop - start) / INR (n - 1) in
    Ok ((fun i => if ((1 <? n) && (i =? n - 1))%nat then stop
                   else start + INR i * step) <$> seq 0 n).

(** [np.zeros((n, m))]. *)
Definition zeros (n m : Z) : result matrix :=
  if ((n <? 0) || (m <? 0))%Z then Raise ValueError
  else Ok (replicate (Z.to_nat n) (replicate (Z.to_nat m) 0)).

(** Python index normalisation along an axis of size [n]: negative indices
    count from the end, anything outside [-n, n) raises [IndexError]. *)
Definition py_index (n : nat) (i : Z) : result nat :=
  if ((0 <=? i) && (i <? Z.of_nat n))%Z then Ok (Z.to_nat i)
  else if ((- Z.of_nat n <=? i) && (i <? 0))%Z then Ok (Z.to_nat (Z.of_nat n + i))
  else Raise IndexError.

(** [range(lo, hi)]. *)
Definition range (lo hi : Z) : list Z :=
  (fun k => (lo + Z.of_nat k)%Z) <$> seq 0 (Z.to_nat (hi - lo)).

(** [Y[i]]. *)
Definition getitem (Y : vec) (i : Z) : result R :=
  let* k := py_index (length Y) i in
  Ok (Y !!! k).

(** [b[i] = v]. *)
Definition setitem (b : vec) (i : Z) (v : R) : result vec :=
  let* k := py_index (length b) i in
  Ok (<[k := v]> b).

(** [A[i, j] = v]; the column axis has the size of the addressed row. *)
Definition setitem2 (A : matrix) (i j : Z) (v : R) : result matrix :=
  let* r := py_index (length A) i in
  let* c := py_index (length (A !!! r)) j in
  Ok (alter (fun row => <[c := v]> row) r A).

(** Dot product and matrix-vector product, the meaning of [A @ y]. *)
Definition dot (r y : vec) : R := foldr Rplus 0 (zip_with Rmult r y).
Definition mat_vec (A : matrix) (y : vec) : vec := (fun r => dot r y) <$> A.

Definition square (A : matrix) : Prop :=
  Forall (fun r => length r = length A) A.

Definition solves (A : matrix) (b y : vec) : Prop :=
  length y = length A /\ mat_vec A y = b.

(** A square matrix is non-singular when every right-hand side has exactly
    one solution. *)
Definition nonsingular (A : matrix) : Prop :=
  square A /\
  forall b, length b = length A ->
    exists y, solves A b y /\ forall y', solves A b y' -> y' = y.

(** [np.linalg.solve(A, b)] by its contract, in exact arithmetic: the
    solution of the well-determined system, [LinAlgError] when [A] is not
    square or is singular, [ValueError] when the shape of [b] does not fit.
    The library's pivoted LU factorisation returns this solution up to
    rounding only: an entry that is zero here can be a rounding residue
    there (entry 1 of the script's solution is, since pivoting swaps
    identity row 1 with stencil row 2).  Which error is raised, and an
    entry computed without any rounding, are the same in both. *)
Definition linalg_solve (A : matrix) (b : vec) : result vec :=
  if excluded_middle_informative (square A) then
    if decide (length b = length A) then
      if excluded_middle_informative (nonsingular A)
      then Ok (epsilon (inhabits []) (solves A b))
      else Raise LinAlgError
    else Raise ValueError
  else Raise LinAlgError.

End NumPy.

Import NumPy.

(** ** The load function *)

Module LoadModel.

(** The formula of [gaussian_load] in real arithmetic, as the solvers
    sample it:
    [P * exp(-((x - a)**2) / (2 * spread**2)) / (spread * sqrt(2 * pi))]. *)
Definition gaussian_load (P x a spread : R) : R :=
  P * exp (- ((x - a) ^ 2) / (2 * spread ^ 2)) / (spread * sqrt (2 * PI)).

(** *** The load function on binary64 values

    [gaussian_load] as Python evaluates it on float64 values (the kernel's
    binary64 floats): sums, products, quotients and square roots are the
    correctly rounded IEEE operations, and Python's own float division and
    power raise where the interpreter's do. *)

Module Float64.
Import PrimFloat.
Local Open Scope float_scope.

(** An argument is a Python [float] or a NumPy value ([np.float64] or an
    array element).  An operation with a NumPy operand is NumPy's. *)
Inductive kind : Set := PyFloat | NpFloat.
Record arg : Type := Arg { arg_kind : kind; arg_val : float }.

Definition mixed (j k : kind) : kind :=
  match j, k with
  | PyFloat, PyFloat => PyFloat
  | _, _ => NpFloat
  end.

(** [n / d].  Python's float division raises on a zero divisor; NumPy's
    returns an infinity or [nan]. *)
Definition truediv (kn kd : kind) (n d : float) : result float :=
  match mixed kn kd with
  | PyFloat => if d =? 0 then Raise ZeroDivisionError else Ok (n / d)
  | NpFloat => Ok (n / d)
  end.

(** [np.pi], the float64 nearest to pi (3.141592653589793). *)
Definition pi : float := 0x1.921fb54442d18p+1.

Section Libm.

(** The library functions the evaluation calls, none of which raises:
    NumPy's [exp], the C library's [pow(v, 2.0)] and NumPy's [v ** 2]. *)
Variable np_exp : float -> float.
Variable c_pow2 : float -> float.
Variable np_pow2 : float -> float.

(** [v ** 2] on a Python float, as the interpreter's float power computes
    it: a [nan], an infinity, a zero and a unit are answered directly;
    otherwise the C library's [pow] is called on the absolute value, and an
    infinite result raises [OverflowError] (an underflow to zero does
    not). *)
Definition py_pow2 (v : float) : result float :=
  if is_nan v then Ok v
  else if is_infinity v then Ok (abs v)
  else if v =? 0 then Ok 0
  else if abs v =? 1 then Ok 1
  else
    let r := c_pow2 (abs v) in
    if is_infinity r then Raise OverflowError else Ok r.

(** The Python floats whose square raises. *)
Definition square_overflows (v : float) : bool :=
  negb (is_nan v) && negb (is_infinity v) && negb (v =? 0)
  && negb (abs v =? 1) && is_infinity (c_pow2 (abs v)).

(** [v ** 2]: Python's float power, or NumPy's, which returns the
    infinity. *)
Definition pow2 (k : kind) (v : float) : result float :=
  match k with
  | PyFloat => py_pow2 v
  | NpFloat => Ok (np_pow2 v)
  end.

(** [P * np.exp(-((x - a)**2) / (2 * spread**2)) / (spread * np.sqrt(2 * np.pi))].
    The operands of the first quotient are computed left to right; [np.exp]
    and [np.sqrt] return NumPy values, so the product, the last divisor and
    the last division are NumPy's and never raise. *)
Definition gaussian_load_py (P : float) (x a spread : arg) : result float :=
  let k := mixed (arg_kind x) (arg_kind a) in
  let* sq := pow2 k (arg_val x - arg_val a) in
  let* s2 := pow2 (arg_kind spread) (arg_val spread) in
  let* q := truediv k (arg_kind spread) (- sq) (2 * s2) in
  Ok (P * np_exp q / (arg_val spread * sqrt (2 * pi))).

End Libm.

End Float64.

End LoadModel.
Import LoadModel.

(** ** Parameters *)

(** The module-level constants of the script. *)
Record params : Type := Params {
  L : R;        (* beam length *)
  EI : R;       (* flexural rigidity *)
  P : R;        (* point load *)
  a : R;        (* load position *)
  spread : R;   (* spread of the Gaussian used by RK4 *)
  dx : R;       (* RK4 step size *)
  N : Z         (* number of points for the central difference *)
}.

Definition script_params : params :=
  {| L := 10; EI := 2e11 * 8.333e-6; P := 1000; a := 5;
     spread := 0.05; dx := 0.1; N := 101 |}.

Definition set_spread (s : R) (p : params) : params :=
  {| L := L p; EI := EI p; P := P p; a := a p;
     spread := s; dx := dx p; N := N p |}.

Definition set_load (q : R) (p : params) : params :=
  {| L := L p; EI := EI p; P := q; a := a p;
     spread := spread p; dx := dx p; N := N p |}.

Definition set_N (n : Z) (p : params) : params :=
  {| L := L p; EI := EI p; P := P p; a := a p;
     spread := spread p; dx := dx p; N := n |}.

(** A beam loaded at its left end, with the load scaled by a tolerance. *)
Definition end_loaded (tol : R) : params :=
  {| L := 1; EI := 1; P := 72 * (Rabs tol + 1); a := 0;
     spread := 1; dx := 1; N := 5 |}.

(** ** Runge-Kutta solver *)

Module RK4.

Section Solver.
Variable p : params.

Definition system_of_odes (x : R) (Y : vec) : result vec :=
  match Y with
  | [y1; y2; y3; y4] =>
      let w := gaussian_load (P p) x (a p) (spread p) in
      Ok [y2; y3; y4; w / EI p]
  | _ => Raise ValueError
  end.

Definition rk4_step (f : R -> vec -> result vec) (x : R) (Y : vec) (h : R)
  : result vec :=
  let* k1 := f x Y in
  let* Y1 := add Y (sdiv (smul h k1) 2) in
  let* k2 := f (x + h / 2) Y1 in
  let* Y2 := add Y (sdiv (smul h k2) 2) in
  let* k3 := f (x + h / 2) Y2 in
  let* Y3 := add Y (smul h k3) in
  let* k4 := f (x + h) Y3 in
  let* s1 := add k1 (smul 2 k2) in
  let* s2 := add s1 (smul 2 k3) in
  let* s3 := add s2 k4 in
  add Y (smul (h / 6) s3).

(** One iteration of the marching loop: record [Y[0]], then step. *)
Definition march (st : vec * list R) (x : R) : result (vec * list R) :=
  let '(Y, y_deflections) := st in
  let* y := getitem Y 0 in
  let* Y' := rk4_step system_of_odes x Y (dx p) in
  Ok (Y', y_deflections ++ [y]).

Definition beam_deflection_rk4 : result (vec * list R) :=
  let* x_vals := arange 0 (L p + dx p) (dx p) in
  let* st := for_each march x_vals ([0; 0; 0; 0], []) in
  Ok (x_vals, snd st).

End Solver.
End RK4.

(** ** Central-difference solver *)

Module CentralDifference.

(** [L / (N - 1)] with a Python float and a Python int. *)
Definition py_div (x : R) (n : Z) : result R :=
  if (n =? 0)%Z then Raise ZeroDivisionError else Ok (x / IZR n).

(** The body of the stencil loop for row [i]. *)
Definition fill_row (A : matrix) (i : Z) : result matrix :=
  let* A := setitem2 A i (i - 2) 1 in
  let* A := setitem2 A i (i - 1) (-4) in
  let* A := setitem2 A i i 6 in
  let* A := setitem2 A i (i + 1) (-4) in
  setitem2 A i (i + 2) 1.

Section Solver.
Variable p : params.

(** Lines 56-74: the grid, the matrix [A] and the right-hand side [b]. *)
Definition assemble : result (vec * matrix * vec) :=
  let* x_vals := linspace 0 (L p) (N p) in
  let* dx := py_div (L p) (N p - 1) in
  let w_vals := (fun x => gaussian_load (P p) x (a p) 0.1) <$> x_vals in
  let rhs := (fun w => w / EI p * dx ^ 4) <$> w_vals in
  let* A := zeros (N p) (N p) in
  let b := rhs in
  let* A := for_each fill_row (range 2 (N p - 2)) A in
  let* A := setitem2 A 0 0 1 in
  let* A := setitem2 A 1 1 1 in
  let* A := setitem2 A (-2) (-2) 1 in
  let* A := setitem2 A (-1) (-1) 1 in
  let* b := setitem b 0 0 in
  let* b := setitem b 1 0 in
  let* b := setitem b (-2) 0 in
  let* b := setitem b (-1) 0 in
  Ok (x_vals, A, b).

Definition beam_deflection_central_difference : result (vec * vec) :=
  let* sys := assemble in
  let '(x_vals, A, b) := sys in
  let* y_deflections := linalg_solve A b in
  Ok (x_vals, y_deflections).

End Solver.
End CentralDifference.


(** ** Plotting and the entry point

    The matplotlib calls of [plot_deflection] and [main] are recorded in
    order; a computation takes the calls made so far and returns them
    extended, together with its result or the exception it raised. *)

Module Script.
Import RK4 CentralDifference.

Inductive event : Type :=
| Plot (x y : vec) (label : string)
| Figure (width height : Z)
| XLabel (text : string)
| YLabel (text : string)
| Title (text : string)
| Grid (on : bool)
| Legend
| TightLayout
| Show.

Definition io (A : Type) : Type := list event -> list event * result A.

Definition io_bind {A B : Type} (m : io A) (k : A -> io B) : io B :=
  fun calls =>
    match m calls with
    | (calls', Ok v) => k v calls'
    | (calls', Raise e) => (calls', Raise e)
    end.

Notation "'let!' x ':=' m 'in' k" := (io_bind m (fun x => k))
  (at level 10, x name, m at level 100, k at level 200).
Notation "m ';;!' k" := (io_bind m (fun _ => k))
  (at level 100, k at level 200, right associativity).

(** A pure computation that may raise. *)
Definition run {A : Type} (r : result A) : io A := fun calls => (calls, r).

Definition call (e : event) : io unit := fun calls => (calls ++ [e], Ok tt).

(** [plt.plot(x, y, label=...)]: the two sequences must have one length. *)
Definition plt_plot (x y : vec) (label : string) : io unit :=
  if (length x =? length y)%nat then call (Plot x y label)
  else run (Raise ValueError).

Definition plot_deflection (x y : vec) (method_name : string) : io unit :=
  plt_plot x y method_name.

Definition main (p : params) : io unit :=
  let! rk4 := run (beam_deflection_rk4 p) in
  let '(x_rk4, y_rk4) := rk4 in
  plot_deflection x_rk4 y_rk4 "Runge-Kutta Method" ;;!
  let! cdf := run (beam_deflection_central_difference p) in
  let '(x_cdf, y_cdf) := cdf in
  plot_deflection x_cdf y_cdf "Central Difference Method" ;;!
  call (Figure 10 4) ;;!
  plot_deflection x_rk4 y_rk4 "Runge-Kutta Method" ;;!
  plot_deflection x_cdf y_cdf "Central Difference Method" ;;!
  call (XLabel "Beam Length (m)") ;;!
  call (YLabel "Deflection (m)") ;;!
  call (Title "Beam Deflection Under Point Load") ;;!
  call (Grid true) ;;!
  call Legend ;;!
  call TightLayout ;;!
  call Show.

End Script.

(** ** Closed forms of the assembled system

    The rows that the stencil loop and the boundary assignments leave in
    [A], written as the code builds them from a zero row; the assembly is
    proved to produce exactly these. *)

Definition stencil_row (n i : nat) : vec :=
  <[(i + 2)%nat := 1]> (<[(i + 1)%nat := -4]> (<[i := 6]>
    (<[(i - 1)%nat := -4]> (<[(i - 2)%nat := 1]> (replicate n 0))))).

Definition unit_row (n i : nat) : vec := <[i := 1]> (replicate n 0).

Definition is_interior (n i : nat) : bool := ((2 <=? i) && (i + 2 <? n))%nat.

Definition system_matrix (n : nat) : matrix :=
  (fun i => if is_interior n i then stencil_row n i else unit_row n i) <$> seq 0 n.

(** Grid point [i] of [np.linspace(0, L, n)]. *)
Definition grid (len : R) (n i : nat) : R :=
  if ((1 <? n) && (i =? n - 1))%nat then len
  else 0 + INR i * ((len - 0) / INR (n - 1)).

(** Entry [i] of [b] after the boundary entries are zeroed. *)
Definition rhs_entry (p : params) (n i : nat) : R :=
  if is_interior n i
  then gaussian_load (P p) (grid (L p) n i) (a p) 0.1 / EI p
       * (L p / IZR (N p - 1)) ^ 4
  else 0.

Definition system_rhs (p : params) (n : nat) : vec :=
  rhs_entry p n <$> seq 0 n.

(** Rows of a matrix as a function of the row index, with entry [(r, c)]
    overwritten. *)
Definition upd (g : nat -> vec) (r c : nat) (v : R) : nat -> vec :=
  fun k => if decide (k = r) then <[c := v]> (g k) else g k.

(** ** Closed form of the marching loop *)

(** The state [Y]: the deflection and its first three derivatives. *)
Definition state : Type := R * R * R * R.

Definition to_vec (Y : state) : vec :=
  let '(y1, y2, y3, y4) := Y in [y1; y2; y3; y4].

Definition deflection (Y : state) : R := let '(y1, _, _, _) := Y in y1.

(** Last component of [system_of_odes]: [w(x) / EI]. *)
Definition load_term (p : params) (x : R) : R :=
  gaussian_load (P p) x (a p) (spread p) / EI p.

(** One RK4 step of the beam system written out, with [q0], [qm], [q1] the
    load terms at [x], [x + h/2] and [x + h]. *)
Definition ode_step (q0 qm q1 h : R) (Y : state) : state :=
  let '(y1, y2, y3, y4) := Y in
  (y1 + h / 6 * (y2 + 2 * (y2 + h * y3 / 2)
                 + 2 * (y2 + h * (y3 + h * y4 / 2) / 2)
                 + (y2 + h * (y3 + h * (y4 + h * q0 / 2) / 2))),
   y2 + h / 6 * (y3 + 2 * (y3 + h * y4 / 2)
                 + 2 * (y3 + h * (y4 + h * q0 / 2) / 2)
                 + (y3 + h * (y4 + h * qm / 2))),
   y3 + h / 6 * (y4 + 2 * (y4 + h * q0 / 2) + 2 * (y4 + h * qm / 2)
                 + (y4 + h * qm)),
   y4 + h / 6 * (q0 + 2 * qm + 2 * qm + q1)).

Definition next (p : params) (x : R) (Y : state) : state :=
  ode_step (load_term p x) (load_term p (x + dx p / 2)) (load_term p (x + dx p))
           (dx p) Y.

(** The deflections recorded while marching over [xs] from state [Y]. *)
Fixpoint trajectory (p : params) (Y : state) (xs : list R) : list R :=
  match xs with
  | [] => []
  | x :: xs' => deflection Y :: trajectory p (next p x Y) xs'
  end.

Fixpoint final_state (p : params) (Y : state) (xs : list R) : state :=
  match xs with
  | [] => Y
  | x :: xs' => final_state p (next p x Y) xs'
  end.

(** The sample positions of [np.arange(0, L + dx, dx)]. *)
Definition rk4_grid (p : params) : vec :=
  (fun i => 0 + INR i * dx p) <$>
  seq 0 (Z.to_nat (ceil ((L p + dx p - 0) / dx p))).

(** The parameter ranges the script is meant for. *)
Definition valid_params (p : params) : Prop :=
  0 < L p /\ 0 < EI p /\ 0 <= a p <= L p /\ 0 < spread p /\ 0 < dx p /\
  (5 <= N p)%Z.

(** Rows of [A] after [m] iterations of the stencil loop: rows
    [2 .. m+1] hold the stencil and all other rows are still zero. *)
Definition loop_rows (n m : nat) (k : nat) : vec :=
  if decide (2 <= k < 2 + m)%nat then stencil_row n k else replicate n 0.

(** Entry [i] of [A @ y] for the assembled matrix. *)
Definition row_product (n : nat) (y : vec) (i : nat) : R :=
  if is_interior n i
  then y !!! (i - 2)%nat - 4 * y !!! (i - 1)%nat + 6 * y !!! i
       - 4 * y !!! (i + 1)%nat + y !!! (i + 2)%nat
  else y !!! i.

(** ** The boundary-value recurrence behind the linear system

    With the two identity rows at each end, [A y = b] is a fourth-order
    linear recurrence with two values prescribed at each end. *)

(** The window [(p k, p (k+1), p (k+2), p (k+3))] of the particular
    solution started from [(g 0, g 1, 0, 0)]. *)
Fixpoint window (g : nat -> R) (k : nat) : R * R * R * R :=
  match k with
  | O => (g 0%nat, g 1%nat, 0, 0)
  | S k' =>
      let '(a, b, c, d) := window g k' in
      (b, c, d, g (k' + 2)%nat - a + 4 * b - 6 * c + 4 * d)
  end.

Definition particular (g : nat -> R) (k : nat) : R :=
  let '(a, _, _, _) := window g k in a.

Definition hom1 (k : nat) : R := INR k * (INR k - 1).
Definition hom2 (k : nat) : R := INR k * (INR k - 1) * (INR k + 1).

(** The solution with right-hand side [g] on a grid of [n >= 4] points. *)
Definition solution (g : nat -> R) (n : nat) (k : nat) : R :=
  let m := (n - 2)%nat in
  let s1 := (g m - particular g m) / hom1 m in
  let s2 := (g (m + 1)%nat - particular g (m + 1)) / hom1 (m + 1) in
  let beta := s2 - s1 in
  let alpha := s1 - beta * (INR m + 1) in
  particular g k + alpha * hom1 k + beta * hom2 k.

(** ** Measures of a matrix row *)

#[global] Instance R_eq_dec : EqDecision R := Req_EM_T.

Definition nonzero_count (r : vec) : nat := length (filter (fun v => v <> 0) r).

Definition row_sum (r : vec) : R := foldr Rplus 0 r.

(** All four components of the state are non-negative. *)
Definition nonneg (Y : state) : Prop :=
  let '(y1, y2, y3, y4) := Y in 0 <= y1 /\ 0 <= y2 /\ 0 <= y3 /\ 0 <= y4.

(** ** The RK4 update as the formula reads

    Vector sum and scaling on arrays of one shape, and the update
    [Y + (h/6)(k1 + 2 k2 + 2 k3 + k4)] with its four stage arguments. *)

Definition vplus (u v : vec) : vec := zip_with Rplus u v.
Definition vscale (c : R) (v : vec) : vec := Rmult c <$> v.

Definition rk4_update (Y k1 k2 k3 k4 : vec) (h : R) : vec :=
  vplus Y (vscale (h / 6) (vplus (vplus (vplus k1 (vscale 2 k2)) (vscale 2 k3)) k4)).

(** A state scaled by a factor. *)
Definition scale_state (c : R) (Y : state) : state :=
  let '(y1, y2, y3, y4) := Y in (c * y1, c * y2, c * y3, c * y4).

(** The discrete beam problem the central-difference solver poses on a
    grid of [n] points with spacing [h]: the fourth difference of [y]
    equals the scaled load at every interior point, and [y] vanishes at the
    two points next to each end. *)
Definition discrete_beam (p : params) (n : nat) (h : R) (y : vec) : Prop :=
  length y = n /\
  (forall i, (2 <= i)%nat -> (i + 2 < n)%nat ->
     y !!! (i - 2)%nat - 4 * y !!! (i - 1)%nat + 6 * y !!! i
     - 4 * y !!! (i + 1)%nat + y !!! (i + 2)%nat
     = gaussian_load (P p) (INR i * h) (a p) 0.1 / EI p * h ^ 4) /\
  (forall i, (i < n)%nat -> (i < 2 \/ n <= i + 2)%nat -> y !!! i = 0).

(** * Properties *)

(** ** The result monad and the array primitives *)

Lemma for_each_app {S I : Type} (body : S -> I -> result S) (l1 l2 : list I) (s : S) :
  for_each body (l1 ++ l2) s =
  let* s' := for_each body l1 s in for_each body l2 s'.
Proof.
  revert s; induction l1 as [|i l1 IH]; intros s; simpl; [done|].
  destruct (body s i) as [s'|e]; simpl; [apply IH | done].
Qed.

Lemma py_index_nat (n k : nat) :
  (k < n)%nat -> py_index n (Z.of_nat k) = Ok k.
Proof.
  intros Hk. unfold py_index.
  destruct (Z.leb_spec 0 (Z.of_nat k)); [|lia].
  destruct (Z.ltb_spec (Z.of_nat k) (Z.of_nat n)); [|lia].
  simpl. by rewrite Nat2Z.id.
Qed.

Lemma py_index_neg (n k : nat) :
  (0 < k <= n)%nat -> py_index n (- Z.of_nat k) = Ok (n - k)%nat.
Proof.
  intros Hk. unfold py_index.
  destruct (Z.leb_spec 0 (- Z.of_nat k)); [lia|]. simpl.
  destruct (Z.leb_spec (- Z.of_nat n) (- Z.of_nat k)); [|lia].
  destruct (Z.ltb_spec (- Z.of_nat k) 0); [|lia].
  simpl. f_equal. lia.
Qed.

Lemma alter_fmap_seq {B : Type} (f : B -> B) (g : nat -> B) (n i : nat) :
  alter f i (g <$> seq 0 n) =
  (fun k => if decide (k = i) then f (g k) else g k) <$> seq 0 n.
Proof.
  apply list_eq; intros j.
  rewrite list_lookup_alter, !list_lookup_fmap.
  destruct (decide (i = j)) as [->|Hne].
  - destruct (seq 0 n !! j) as [k|] eqn:Hk; simpl; [|done].
    apply lookup_seq in Hk as [-> _]. simpl. by rewrite decide_True.
  - destruct (seq 0 n !! j) as [k|] eqn:Hk; simpl; [|done].
    apply lookup_seq in Hk as [-> _]. simpl. by rewrite decide_False.
Qed.

Lemma fmap_seq_ext {B : Type} (f g : nat -> B) (n : nat) :
  (forall k, (k < n)%nat -> f k = g k) -> f <$> seq 0 n = g <$> seq 0 n.
Proof.
  intros H. apply list_eq; intros j. rewrite !list_lookup_fmap.
  destruct (seq 0 n !! j) as [k|] eqn:Hk; simpl; [|done].
  apply lookup_seq in Hk as [-> ?]. simpl. f_equal. by apply H.
Qed.

Lemma lookup_fmap_seq {B : Type} (g : nat -> B) (n i : nat) :
  (i < n)%nat -> (g <$> seq 0 n) !! i = Some (g i).
Proof. intros Hi. by rewrite list_lookup_fmap, lookup_seq_lt. Qed.

(** [A[i, j] = v] on a matrix given row by row, for in-range indices. *)
Lemma setitem2_rows (g : nat -> vec) (n r c : nat) (i j : Z) (v : R) :
  py_index n i = Ok r -> (r < n)%nat ->
  py_index (length (g r)) j = Ok c ->
  setitem2 (g <$> seq 0 n) i j v =
  Ok ((fun k => if decide (k = r) then <[c := v]> (g k) else g k) <$> seq 0 n).
Proof.
  intros Hi Hr Hj. unfold setitem2.
  rewrite length_fmap, length_seq, Hi. simpl.
  rewrite (list_lookup_total_correct _ _ (g r)) by by apply lookup_fmap_seq.
  rewrite Hj. simpl. by rewrite alter_fmap_seq.
Qed.

Lemma insert_fmap_seq {B : Type} (v : B) (g : nat -> B) (n i : nat) :
  <[i := v]> (g <$> seq 0 n) =
  (fun k => if decide (k = i) then v else g k) <$> seq 0 n.
Proof.
  apply list_eq; intros j.
  rewrite list_lookup_insert, !list_lookup_fmap, length_fmap, length_seq.
  destruct (seq 0 n !! j) as [k|] eqn:Hk; simpl.
  - apply lookup_seq in Hk as [-> Hlt]. simpl.
    repeat case_decide; try done; lia.
  - apply lookup_ge_None in Hk. rewrite length_seq in Hk.
    case_decide; [lia | done].
Qed.

Lemma replicate_fmap_seq {B : Type} (x : B) (n : nat) :
  replicate n x = (fun _ => x) <$> seq 0 n.
Proof.
  apply list_eq; intros j. rewrite list_lookup_fmap.
  destruct (decide (j < n)%nat) as [Hlt|Hge].
  - by rewrite lookup_replicate_2, lookup_seq_lt.
  - rewrite (proj1 (lookup_replicate_None _ _ _)) by lia.
    by rewrite lookup_seq_ge by lia.
Qed.

(** ** The assembled matrix *)

Module Assembly.
Import CentralDifference.

Lemma length_stencil_row (n i : nat) : length (stencil_row n i) = n.
Proof. unfold stencil_row. by rewrite !length_insert, length_replicate. Qed.

Lemma length_unit_row (n i : nat) : length (unit_row n i) = n.
Proof. unfold unit_row. by rewrite length_insert, length_replicate. Qed.

Lemma length_upd (g : nat -> vec) (n r c : nat) (v : R) :
  (forall k, length (g k) = n) -> forall k, length (upd g r c v k) = n.
Proof.
  intros Hg k. unfold upd. case_decide; [rewrite length_insert|]; apply Hg.
Qed.

Lemma setitem2_upd (g : nat -> vec) (n r c : nat) (i j : Z) (v : R) :
  (forall k, length (g k) = n) ->
  py_index n i = Ok r -> (r < n)%nat -> py_index n j = Ok c ->
  setitem2 (g <$> seq 0 n) i j v = Ok (upd g r c v <$> seq 0 n).
Proof.
  intros Hg Hi Hr Hj. apply setitem2_rows; [done | done | by rewrite Hg].
Qed.

(** One pass of the loop body rewrites row [i] only. *)
Lemma fill_row_rows (g : nat -> vec) (n i : nat) :
  (forall k, length (g k) = n) -> (2 <= i)%nat -> (i + 2 < n)%nat ->
  fill_row (g <$> seq 0 n) (Z.of_nat i) =
  Ok (upd (upd (upd (upd (upd g i (i - 2) 1) i (i - 1) (-4)) i i 6)
               i (i + 1) (-4)) i (i + 2) 1 <$> seq 0 n).
Proof.
  intros Hlen H2 Hn. unfold fill_row.
  replace (Z.of_nat i - 2)%Z with (Z.of_nat (i - 2)) by lia.
  replace (Z.of_nat i - 1)%Z with (Z.of_nat (i - 1)) by lia.
  replace (Z.of_nat i + 1)%Z with (Z.of_nat (i + 1)) by lia.
  replace (Z.of_nat i + 2)%Z with (Z.of_nat (i + 2)) by lia.
  rewrite (setitem2_upd g n i (i - 2));
    [| done | apply py_index_nat; lia | lia | apply py_index_nat; lia].
  cbn [bind].
  rewrite (setitem2_upd _ n i (i - 1));
    [| by repeat apply length_upd | apply py_index_nat; lia | lia
     | apply py_index_nat; lia].
  cbn [bind].
  rewrite (setitem2_upd _ n i i);
    [| by repeat apply length_upd | apply py_index_nat; lia | lia
     | apply py_index_nat; lia].
  cbn [bind].
  rewrite (setitem2_upd _ n i (i + 1));
    [| by repeat apply length_upd | apply py_index_nat; lia | lia
     | apply py_index_nat; lia].
  cbn [bind].
  rewrite (setitem2_upd _ n i (i + 2));
    [| by repeat apply length_upd | apply py_index_nat; lia | lia
     | apply py_index_nat; lia].
  done.
Qed.

Lemma length_loop_rows (n m k : nat) : length (loop_rows n m k) = n.
Proof.
  unfold loop_rows. case_decide; [apply length_stencil_row | apply length_replicate].
Qed.

Lemma stencil_loop (n m : nat) :
  (m <= n - 4)%nat ->
  for_each fill_row ((fun k => (2 + Z.of_nat k)%Z) <$> seq 0 m)
           (replicate n (replicate n 0)) =
  Ok (loop_rows n m <$> seq 0 n).
Proof.
  induction m as [|m IH]; intros Hm.
  - cbn [fmap list_fmap seq for_each]. f_equal. rewrite replicate_fmap_seq.
    apply fmap_seq_ext. intros k _. unfold loop_rows.
    rewrite decide_False by lia. done.
  - rewrite seq_S, fmap_app, for_each_app, IH by lia.
    cbn [bind fmap list_fmap for_each Nat.add].
    replace (2 + Z.of_nat m)%Z with (Z.of_nat (2 + m)) by lia.
    rewrite (fill_row_rows _ n); [| apply length_loop_rows | lia | lia].
    cbn [bind]. f_equal. apply fmap_seq_ext. intros k _.
    unfold upd, loop_rows.
    repeat case_decide; subst; try lia; done.
Qed.


Lemma setitem_fmap_seq (g : nat -> R) (n k : nat) (i : Z) (v : R) :
  py_index n i = Ok k ->
  setitem (g <$> seq 0 n) i v =
  Ok ((fun j => if decide (j = k) then v else g j) <$> seq 0 n).
Proof.
  intros Hi. unfold setitem. rewrite length_fmap, length_seq, Hi.
  cbn [bind]. by rewrite insert_fmap_seq.
Qed.

(** The four diagonal assignments on the rows left by the loop. *)
Lemma boundary_rows (n k : nat) :
  (2 <= n)%nat -> (k < n)%nat ->
  upd (upd (upd (upd (loop_rows n (n - 4)) 0 0 1) 1 1 1)
           (n - 2) (n - 2) 1) (n - 1) (n - 1) 1 k =
  if is_interior n k then stencil_row n k else unit_row n k.
Proof.
  intros Hn Hk. unfold is_interior.
  destruct (decide (4 <= n)%nat) as [H4|H4].
  - unfold upd, loop_rows, unit_row.
    destruct (Nat.leb_spec 2 k), (Nat.ltb_spec (k + 2) n); cbn [andb];
      repeat case_decide; subst; try lia; done.
  - assert (n = 2 \/ n = 3)%nat as [-> | ->] by lia.
    + destruct k as [|[|k]]; [done | done | lia].
    + destruct k as [|[|[|k]]]; [done | done | done | lia].
Qed.

(** The assembly succeeds for every grid of at least two points and
    produces the closed forms above. *)
Lemma assemble_closed_form (p : params) (n : nat) :
  N p = Z.of_nat n -> (2 <= n)%nat ->
  assemble p = Ok (grid (L p) n <$> seq 0 n, system_matrix n, system_rhs p n).
Proof.
  intros HN Hn. unfold assemble, linspace, py_div, zeros, range.
  rewrite HN.
  destruct (Z.ltb_spec (Z.of_nat n) 0) as [|_]; [lia|].
  destruct (Z.eqb_spec (Z.of_nat n - 1) 0) as [|_]; [lia|].
  rewrite Nat2Z.id. cbn [bind orb].
  replace (Z.to_nat (Z.of_nat n - 2 - 2)) with (n - 4)%nat by lia.
  rewrite stencil_loop by lia. cbn [bind].
  rewrite (setitem2_upd _ n 0 0);
    [| apply length_loop_rows | apply (py_index_nat n 0); lia | lia
     | apply (py_index_nat n 0); lia].
  cbn [bind].
  rewrite (setitem2_upd _ n 1 1);
    [| by repeat apply length_upd; apply length_loop_rows
     | apply (py_index_nat n 1); lia | lia | apply (py_index_nat n 1); lia].
  cbn [bind].
  rewrite (setitem2_upd _ n (n - 2) (n - 2));
    [| by repeat apply length_upd; apply length_loop_rows
     | apply (py_index_neg n 2); lia | lia | apply (py_index_neg n 2); lia].
  cbn [bind].
  rewrite (setitem2_upd _ n (n - 1) (n - 1));
    [| by repeat apply length_upd; apply length_loop_rows
     | apply (py_index_neg n 1); lia | lia | apply (py_index_neg n 1); lia].
  cbn [bind].
  rewrite <- !list_fmap_compose.
  rewrite (setitem_fmap_seq _ n 0) by (apply (py_index_nat n 0); lia).
  cbn [bind].
  rewrite (setitem_fmap_seq _ n 1) by (apply (py_index_nat n 1); lia).
  cbn [bind].
  rewrite (setitem_fmap_seq _ n (n - 2)) by (apply (py_index_neg n 2); lia).
  cbn [bind].
  rewrite (setitem_fmap_seq _ n (n - 1)) by (apply (py_index_neg n 1); lia).
  cbn [bind].
  f_equal. f_equal; [f_equal|].
  - apply fmap_seq_ext. intros k Hk. by apply boundary_rows.
  - unfold system_rhs. apply fmap_seq_ext. intros k Hk.
    unfold rhs_entry, is_interior, grid, compose. rewrite HN.
    destruct (Nat.leb_spec 2 k), (Nat.ltb_spec (k + 2) n); cbn [andb];
      repeat case_decide; try lia; done.
Qed.

End Assembly.

(** ** Products with the rows of the system *)

Module Rows.

Lemma dot_nil_r (r : vec) : dot r [] = 0.
Proof. unfold dot. by destruct r. Qed.

Lemma dot_cons (c x : R) (r y : vec) : dot (c :: r) (x :: y) = c * x + dot r y.
Proof. done. Qed.

Lemma dot_zero_row (n : nat) (y : vec) : dot (replicate n 0) y = 0.
Proof.
  revert y; induction n as [|n IH]; intros [|x y]; try done.
  cbn [replicate]. rewrite dot_cons, IH. lra.
Qed.

(** Overwriting one coefficient changes the product by the change of that
    coefficient times the matching entry. *)
Lemma dot_insert (r y : vec) (j : nat) (c : R) :
  (j < length r)%nat ->
  dot (<[j := c]> r) y = dot r y + (c - r !!! j) * (y !!! j).
Proof.
  revert y j; induction r as [|c0 r IH]; intros y j Hj; [simpl in Hj; lia|].
  destruct y as [|x y].
  - rewrite !dot_nil_r.
    replace ((@nil R) !!! j) with 0 by by destruct j. lra.
  - destruct j as [|j].
    + change (<[0%nat := c]> (c0 :: r)) with (c :: r).
      rewrite !dot_cons.
      change ((c0 :: r) !!! 0%nat) with c0.
      change ((x :: y) !!! 0%nat) with x. lra.
    + change (<[S j := c]> (c0 :: r)) with (c0 :: <[j := c]> r).
      rewrite !dot_cons, (IH y j) by (simpl in Hj; lia).
      change ((c0 :: r) !!! S j) with (r !!! j).
      change ((x :: y) !!! S j) with (y !!! j). lra.
Qed.

Lemma dot_unit_row (n i : nat) (y : vec) :
  (i < n)%nat -> dot (unit_row n i) y = y !!! i.
Proof.
  intros Hi. unfold unit_row.
  rewrite dot_insert by (rewrite length_replicate; lia).
  rewrite dot_zero_row, lookup_total_replicate_2 by done. lra.
Qed.

Lemma dot_stencil_row (n i : nat) (y : vec) :
  (2 <= i)%nat -> (i + 2 < n)%nat ->
  dot (stencil_row n i) y =
  y !!! (i - 2)%nat - 4 * y !!! (i - 1)%nat + 6 * y !!! i
  - 4 * y !!! (i + 1)%nat + y !!! (i + 2)%nat.
Proof.
  intros H2 Hn. unfold stencil_row.
  rewrite !dot_insert by (rewrite ?length_insert, length_replicate; lia).
  rewrite !list_lookup_total_insert_ne by lia.
  rewrite dot_zero_row, !lookup_total_replicate_2 by lia. lra.
Qed.

Lemma mat_vec_system (n : nat) (y : vec) :
  mat_vec (system_matrix n) y = row_product n y <$> seq 0 n.
Proof.
  unfold mat_vec, system_matrix. rewrite <- list_fmap_compose.
  apply fmap_seq_ext. intros k Hk. unfold compose, row_product, is_interior.
  destruct (Nat.leb_spec 2 k), (Nat.ltb_spec (k + 2) n); cbn [andb];
    first [by apply dot_stencil_row | by apply dot_unit_row].
Qed.

Lemma square_system (n : nat) : square (system_matrix n).
Proof.
  unfold square, system_matrix. rewrite length_fmap, length_seq.
  apply Forall_fmap, Forall_forall. intros k _. cbn.
  destruct (is_interior n k);
    [apply Assembly.length_stencil_row | apply Assembly.length_unit_row].
Qed.

Lemma length_system (n : nat) : length (system_matrix n) = n.
Proof. unfold system_matrix. by rewrite length_fmap, length_seq. Qed.

End Rows.

(** ** The assembled matrix is non-singular

    The homogeneous solutions of the recurrence that vanish at indices 0
    and 1 are spanned by [k (k - 1)] and [k (k - 1) (k + 1)]; the two
    conditions at the far end then fix the solution. *)

Module Nonsingular.
Import Rows.

Lemma window_shift (g : nat -> R) (k : nat) :
  window g k =
  (particular g k, particular g (k + 1), particular g (k + 2), particular g (k + 3)).
Proof.
  unfold particular.
  replace (k + 1)%nat with (S k) by lia.
  replace (k + 2)%nat with (S (S k)) by lia.
  replace (k + 3)%nat with (S (S (S k))) by lia.
  cbn [window]. by destruct (window g k) as [[[a b] c] d].
Qed.

Lemma particular_rec (g : nat -> R) (k : nat) :
  particular g k - 4 * particular g (k + 1) + 6 * particular g (k + 2)
  - 4 * particular g (k + 3) + particular g (k + 4) = g (k + 2)%nat.
Proof.
  pose proof (window_shift g k) as Hk.
  pose proof (window_shift g (S k)) as HS.
  cbn [window] in HS. rewrite Hk in HS.
  injection HS as _ _ _ H4.
  replace (k + 4)%nat with (S k + 3)%nat by lia.
  change (particular g (S k + 3)) with (particular g (S (k + 3))).
  rewrite <- H4. replace (k + 2)%nat with (k + 2)%nat by done. lra.
Qed.

Lemma hom1_rec (k : nat) :
  hom1 k - 4 * hom1 (k + 1) + 6 * hom1 (k + 2) - 4 * hom1 (k + 3)
  + hom1 (k + 4) = 0.
Proof. unfold hom1. rewrite !plus_INR. simpl INR. ring. Qed.

Lemma hom2_rec (k : nat) :
  hom2 k - 4 * hom2 (k + 1) + 6 * hom2 (k + 2) - 4 * hom2 (k + 3)
  + hom2 (k + 4) = 0.
Proof. unfold hom2. rewrite !plus_INR. simpl INR. ring. Qed.

Lemma hom1_pos (k : nat) : (2 <= k)%nat -> 0 < hom1 k.
Proof.
  intros Hk. unfold hom1. apply le_INR in Hk. simpl INR in Hk.
  apply Rmult_lt_0_compat; lra.
Qed.

Lemma solution_rec (g : nat -> R) (n k : nat) :
  solution g n k - 4 * solution g n (k + 1) + 6 * solution g n (k + 2)
  - 4 * solution g n (k + 3) + solution g n (k + 4) = g (k + 2)%nat.
Proof.
  unfold solution. cbv zeta.
  pose proof (particular_rec g k). pose proof (hom1_rec k). pose proof (hom2_rec k).
  nra.
Qed.

Lemma solution_0 (g : nat -> R) (n : nat) : solution g n 0 = g 0%nat.
Proof. unfold solution, hom1, hom2, particular. cbn. lra. Qed.

Lemma solution_1 (g : nat -> R) (n : nat) : solution g n 1 = g 1%nat.
Proof. unfold solution, hom1, hom2, particular. cbn. lra. Qed.


Lemma hom2_hom1 (k : nat) : hom2 k = hom1 k * (INR k + 1).
Proof. unfold hom1, hom2. ring. Qed.

Lemma solution_m (g : nat -> R) (n : nat) :
  (4 <= n)%nat -> solution g n (n - 2) = g (n - 2)%nat.
Proof.
  intros Hn. unfold solution. cbv zeta.
  set (m := (n - 2)%nat).
  pose proof (hom1_pos m ltac:(lia)) as H1.
  pose proof (hom1_pos (m + 1) ltac:(lia)) as H2.
  rewrite hom2_hom1. field. lra.
Qed.

Lemma solution_m1 (g : nat -> R) (n : nat) :
  (4 <= n)%nat -> solution g n (n - 1) = g (n - 1)%nat.
Proof.
  intros Hn. unfold solution. cbv zeta.
  replace (n - 1)%nat with (n - 2 + 1)%nat by lia.
  set (m := (n - 2)%nat).
  pose proof (hom1_pos m ltac:(lia)) as H1.
  pose proof (hom1_pos (m + 1) ltac:(lia)) as H2.
  rewrite hom2_hom1, (plus_INR m 1). simpl (INR 1). field. lra.
Qed.

(** A sequence that vanishes at both pairs of boundary indices and
    satisfies the homogeneous stencil in between vanishes on the grid. *)
Lemma homogeneous_closed_form (f : nat -> R) (n : nat) (alpha beta : R) :
  f 0%nat = 0 -> f 1%nat = 0 ->
  f 2%nat = 2 * alpha + 6 * beta -> f 3%nat = 6 * alpha + 24 * beta ->
  (forall k, (k + 4 < n)%nat ->
     f k - 4 * f (k + 1)%nat + 6 * f (k + 2)%nat - 4 * f (k + 3)%nat
     + f (k + 4)%nat = 0) ->
  forall k, (k < n)%nat -> f k = alpha * hom1 k + beta * hom2 k.
Proof.
  intros H0 H1 H2 H3 Hrec k. induction k as [k IH] using lt_wf_ind. intros Hk.
  destruct k as [|[|[|[|k]]]].
  - rewrite H0. unfold hom1, hom2. simpl INR. ring.
  - rewrite H1. unfold hom1, hom2. simpl INR. ring.
  - rewrite H2. unfold hom1, hom2. simpl INR. ring.
  - rewrite H3. unfold hom1, hom2. simpl INR. ring.
  - pose proof (Hrec k ltac:(lia)) as Hr.
    pose proof (IH k ltac:(lia) ltac:(lia)) as I0.
    pose proof (IH (k + 1)%nat ltac:(lia) ltac:(lia)) as I1.
    pose proof (IH (k + 2)%nat ltac:(lia) ltac:(lia)) as I2.
    pose proof (IH (k + 3)%nat ltac:(lia) ltac:(lia)) as I3.
    pose proof (hom1_rec k) as Hh1. pose proof (hom2_rec k) as Hh2.
    replace (S (S (S (S k)))) with (k + 4)%nat by lia.
    nra.
Qed.

Lemma homogeneous_zero (f : nat -> R) (n : nat) :
  (4 <= n)%nat ->
  f 0%nat = 0 -> f 1%nat = 0 -> f (n - 2)%nat = 0 -> f (n - 1)%nat = 0 ->
  (forall k, (k + 4 < n)%nat ->
     f k - 4 * f (k + 1)%nat + 6 * f (k + 2)%nat - 4 * f (k + 3)%nat
     + f (k + 4)%nat = 0) ->
  forall k, (k < n)%nat -> f k = 0.
Proof.
  intros Hn H0 H1 Hm Hm1 Hrec.
  set (beta := (f 3%nat - 3 * f 2%nat) / 6).
  set (alpha := f 2%nat / 2 - 3 * beta).
  assert (Hcf : forall k, (k < n)%nat -> f k = alpha * hom1 k + beta * hom2 k).
  { apply homogeneous_closed_form; try done; unfold alpha, beta; field. }
  pose proof (Hcf (n - 2)%nat ltac:(lia)) as Ea.
  pose proof (Hcf (n - 1)%nat ltac:(lia)) as Eb.
  rewrite Hm, hom2_hom1 in Ea. rewrite Hm1, hom2_hom1 in Eb.
  replace (n - 1)%nat with (n - 2 + 1)%nat in Eb by lia.
  pose proof (hom1_pos (n - 2) ltac:(lia)) as P1.
  pose proof (hom1_pos (n - 2 + 1) ltac:(lia)) as P2.
  rewrite (plus_INR (n - 2) 1) in Eb. simpl (INR 1) in Eb.
  set (M := INR (n - 2)) in *.
  assert (Ea' : alpha + beta * (M + 1) = 0).
  { apply (Rmult_eq_reg_l (hom1 (n - 2))); [lra | lra]. }
  assert (Eb' : alpha + beta * (M + 1 + 1) = 0).
  { apply (Rmult_eq_reg_l (hom1 (n - 2 + 1))); [lra | lra]. }
  assert (beta = 0) as Hb by lra.
  assert (alpha = 0) as Ha by (rewrite Hb in Ea'; lra).
  intros k Hk. rewrite (Hcf k Hk), Ha, Hb. ring.
Qed.


Lemma vec_as_fmap_seq (y : vec) (n : nat) :
  length y = n -> y = (fun i => y !!! i) <$> seq 0 n.
Proof.
  intros Hy. apply list_eq; intros i. rewrite list_lookup_fmap.
  destruct (decide (i < n)%nat) as [Hi|Hi].
  - rewrite lookup_seq_lt by done. simpl.
    apply list_lookup_lookup_total_lt. lia.
  - rewrite lookup_seq_ge by lia. simpl. apply lookup_ge_None. lia.
Qed.

Lemma lookup_total_fmap_seq (g : nat -> R) (n i : nat) :
  (i < n)%nat -> (g <$> seq 0 n) !!! i = g i.
Proof. intros Hi. apply list_lookup_total_correct. by apply lookup_fmap_seq. Qed.

Lemma solves_rows (n : nat) (b y : vec) :
  length b = n ->
  solves (system_matrix n) b y <->
  length y = n /\ forall i, (i < n)%nat -> row_product n y i = b !!! i.
Proof.
  intros Hb. unfold solves. rewrite length_system, mat_vec_system. split.
  - intros [Hy E]. split; [done|]. intros i Hi.
    rewrite <- E. by rewrite lookup_total_fmap_seq.
  - intros [Hy E]. split; [done|].
    rewrite (vec_as_fmap_seq b n Hb). by apply fmap_seq_ext.
Qed.

Lemma interior_bounds (n i : nat) :
  is_interior n i = true <-> (2 <= i)%nat /\ (i + 2 < n)%nat.
Proof.
  unfold is_interior.
  destruct (Nat.leb_spec 2 i), (Nat.ltb_spec (i + 2) n); cbn [andb];
    split; intros; try done; lia.
Qed.

Lemma not_interior_bounds (n i : nat) :
  is_interior n i = false <-> (i < 2)%nat \/ (n <= i + 2)%nat.
Proof.
  unfold is_interior.
  destruct (Nat.leb_spec 2 i), (Nat.ltb_spec (i + 2) n); cbn [andb];
    split; intros; try done; lia.
Qed.

Lemma system_has_solution (n : nat) (b : vec) :
  length b = n -> exists y, solves (system_matrix n) b y.
Proof.
  intros Hb. destruct (decide (4 <= n)%nat) as [Hn|Hn].
  - set (g := fun i => b !!! i).
    exists (solution g n <$> seq 0 n). apply solves_rows; [done|].
    split; [by rewrite length_fmap, length_seq|].
    intros i Hi. unfold row_product.
    destruct (is_interior n i) eqn:Hint.
    + apply interior_bounds in Hint as [H2 H3].
      rewrite !lookup_total_fmap_seq by lia.
      pose proof (solution_rec g n (i - 2)) as Hr.
      replace (i - 2 + 1)%nat with (i - 1)%nat in Hr by lia.
      replace (i - 2 + 2)%nat with i in Hr by lia.
      replace (i - 2 + 3)%nat with (i + 1)%nat in Hr by lia.
      replace (i - 2 + 4)%nat with (i + 2)%nat in Hr by lia.
      exact Hr.
    + apply not_interior_bounds in Hint.
      rewrite lookup_total_fmap_seq by lia.
      assert (i = 0 \/ i = 1 \/ i = n - 2 \/ i = n - 1)%nat
        as [-> | [-> | [-> | ->]]] by lia.
      * apply solution_0.
      * apply solution_1.
      * by apply solution_m.
      * by apply solution_m1.
  - exists b. apply solves_rows; [done|]. split; [done|].
    intros i Hi. unfold row_product.
    destruct (is_interior n i) eqn:Hint; [|done].
    apply interior_bounds in Hint. lia.
Qed.

Lemma system_solution_unique (n : nat) (b y y' : vec) :
  length b = n ->
  solves (system_matrix n) b y -> solves (system_matrix n) b y' -> y' = y.
Proof.
  intros Hb [Hy E]%solves_rows [Hy' E']%solves_rows; try done.
  rewrite (vec_as_fmap_seq y n Hy), (vec_as_fmap_seq y' n Hy').
  apply fmap_seq_ext.
  assert (Hrow : forall i, (i < n)%nat -> row_product n y' i = row_product n y i).
  { intros i Hi. by rewrite E, E'. }
  destruct (decide (4 <= n)%nat) as [Hn|Hn].
  - set (f := fun i => y' !!! i - y !!! i).
    assert (Hf : forall k, (k < n)%nat -> f k = 0).
    { assert (Hbd : forall i, (i < n)%nat -> (i < 2)%nat \/ (n <= i + 2)%nat ->
                      f i = 0).
      { intros i Hi Hni. apply not_interior_bounds in Hni.
        pose proof (Hrow i Hi) as Hr. unfold row_product in Hr.
        rewrite Hni in Hr. unfold f. lra. }
      apply homogeneous_zero; try (apply Hbd; lia); [done|].
      intros k Hk. pose proof (Hrow (k + 2)%nat ltac:(lia)) as Hr.
      unfold row_product in Hr.
      rewrite (proj2 (interior_bounds n (k + 2)) ltac:(lia)) in Hr.
      replace (k + 2 - 2)%nat with k in Hr by lia.
      replace (k + 2 - 1)%nat with (k + 1)%nat in Hr by lia.
      replace (k + 2 + 1)%nat with (k + 3)%nat in Hr by lia.
      replace (k + 2 + 2)%nat with (k + 4)%nat in Hr by lia.
      unfold f. lra. }
    intros k Hk. specialize (Hf k Hk). unfold f in Hf. lra.
  - intros k Hk. pose proof (Hrow k Hk) as Hr. unfold row_product in Hr.
    rewrite (proj2 (not_interior_bounds n k) ltac:(lia)) in Hr. done.
Qed.

(** The matrix assembled for a grid of [n] points is non-singular. *)
Lemma nonsingular_system (n : nat) : nonsingular (system_matrix n).
Proof.
  split; [apply square_system|]. intros b Hb. rewrite length_system in Hb.
  destruct (system_has_solution n b Hb) as [y Hy].
  exists y. split; [done|]. intros y' Hy'.
  by apply (system_solution_unique n b).
Qed.

(** [np.linalg.solve] on a non-singular matrix returns the solution. *)
Lemma linalg_solve_nonsingular (A : matrix) (b y : vec) :
  nonsingular A -> solves A b y -> length b = length A ->
  linalg_solve A b = Ok y.
Proof.
  intros HA Hy Hb. unfold linalg_solve.
  destruct (excluded_middle_informative (square A)) as [_|Hs];
    [|by destruct HA].
  rewrite decide_True by done.
  destruct (excluded_middle_informative (nonsingular A)) as [_|]; [|done].
  f_equal. destruct HA as [_ HA]. destruct (HA b Hb) as (y0 & Hy0 & Huniq).
  rewrite (Huniq y Hy). apply Huniq.
  apply epsilon_spec. by exists y.
Qed.

Lemma linalg_solve_singular (A : matrix) (b : vec) :
  linalg_solve A b = Raise LinAlgError -> ~ nonsingular A.
Proof.
  unfold linalg_solve. intros H HA.
  destruct (excluded_middle_informative (square A)); [|by destruct HA].
  destruct (decide (length b = length A)); [|done].
  by destruct (excluded_middle_informative (nonsingular A)).
Qed.

End Nonsingular.

(** ** The marching loop *)

Module Marching.
Import RK4.

Lemma rk4_step_ode (p : params) (x h : R) (Y : state) :
  rk4_step (system_of_odes p) x (to_vec Y) h =
  Ok (to_vec (ode_step (load_term p x) (load_term p (x + h / 2))
                       (load_term p (x + h)) h Y)).
Proof. by destruct Y as [[[y1 y2] y3] y4]. Qed.

Lemma march_state (p : params) (x : R) (Y : state) (ys : list R) :
  march p (to_vec Y, ys) x = Ok (to_vec (next p x Y), ys ++ [deflection Y]).
Proof.
  unfold march. rewrite rk4_step_ode. by destruct Y as [[[y1 y2] y3] y4].
Qed.

Lemma march_loop (p : params) (xs : list R) (Y : state) (ys : list R) :
  for_each (march p) xs (to_vec Y, ys) =
  Ok (to_vec (final_state p Y xs), ys ++ trajectory p Y xs).
Proof.
  revert Y ys; induction xs as [|x xs IH]; intros Y ys.
  - cbn. by rewrite app_nil_r.
  - cbn [for_each]. rewrite march_state. cbn [bind].
    rewrite IH. cbn [trajectory final_state]. by rewrite <- app_assoc.
Qed.

(** The solver returns the arange grid and the trajectory from rest. *)
Lemma beam_deflection_rk4_value (p : params) :
  dx p <> 0 ->
  beam_deflection_rk4 p = Ok (rk4_grid p, trajectory p (0, 0, 0, 0) (rk4_grid p)).
Proof.
  intros Hdx. unfold beam_deflection_rk4, arange.
  destruct (Req_EM_T (dx p) 0) as [|_]; [done|]. cbn [bind].
  change [0; 0; 0; 0] with (to_vec (0, 0, 0, 0)).
  fold (rk4_grid p). by rewrite march_loop.
Qed.

Lemma length_trajectory (p : params) (Y : state) (xs : list R) :
  length (trajectory p Y xs) = length xs.
Proof. revert Y; induction xs as [|x xs IH]; intros Y; cbn; [done|by rewrite IH]. Qed.


Lemma add_same_shape (u v : vec) :
  length u = length v -> add u v = Ok (vplus u v).
Proof. intros E. unfold add, broadcast2. by rewrite E, Nat.eqb_refl. Qed.

Lemma half_step (h : R) (k : vec) : sdiv (smul h k) 2 = vscale (h / 2) k.
Proof.
  unfold sdiv, smul, vscale. rewrite <- list_fmap_compose.
  apply list_fmap_ext. intros _ v _. unfold compose. lra.
Qed.

Lemma length_vplus (u v : vec) :
  length u = length v -> length (vplus u v) = length u.
Proof. intros E. unfold vplus. rewrite length_zip_with. lia. Qed.

Lemma length_vscale (c : R) (v : vec) : length (vscale c v) = length v.
Proof. unfold vscale. apply length_fmap. Qed.

Lemma trajectory_second (p : params) (Y : state) (x0 x1 : R) (xs : list R) :
  trajectory p Y (x0 :: x1 :: xs) !! 1%nat = Some (deflection (next p x0 Y)).
Proof. done. Qed.

End Marching.

(** ** The central-difference solver *)

Module Solve.
Import CentralDifference Rows Nonsingular.

Lemma length_system_rhs (p : params) (n : nat) : length (system_rhs p n) = n.
Proof. unfold system_rhs. by rewrite length_fmap, length_seq. Qed.

(** For every grid of at least two points the solver returns the grid and
    the solution of the assembled system. *)
Lemma central_difference_value (p : params) (n : nat) :
  N p = Z.of_nat n -> (2 <= n)%nat ->
  exists y,
    beam_deflection_central_difference p = Ok (grid (L p) n <$> seq 0 n, y) /\
    solves (system_matrix n) (system_rhs p n) y.
Proof.
  intros HN Hn.
  destruct (system_has_solution n (system_rhs p n) (length_system_rhs p n))
    as [y Hy].
  exists y. split; [|done].
  unfold beam_deflection_central_difference.
  rewrite (Assembly.assemble_closed_form p n HN Hn). cbn [bind].
  rewrite (linalg_solve_nonsingular _ _ y); [done | | done |].
  - apply nonsingular_system.
  - by rewrite length_system, length_system_rhs.
Qed.

Lemma stencil_row_lookup (n i j : nat) :
  (2 <= i)%nat -> (i + 2 < n)%nat -> (j < n)%nat ->
  stencil_row n i !! j =
  Some (if decide (j = i - 2)%nat then 1
        else if decide (j = i - 1)%nat then -4
        else if decide (j = i) then 6
        else if decide (j = i + 1)%nat then -4
        else if decide (j = i + 2)%nat then 1
        else 0).
Proof.
  intros H2 Hn Hj. unfold stencil_row.
  rewrite !list_lookup_insert, !length_insert, length_replicate.
  rewrite lookup_replicate_2 by done.
  repeat case_decide; try done; lia.
Qed.

Lemma unit_row_lookup (n i j : nat) :
  (i < n)%nat -> (j < n)%nat ->
  unit_row n i !! j = Some (if decide (j = i) then 1 else 0).
Proof.
  intros Hi Hj. unfold unit_row.
  rewrite list_lookup_insert, length_replicate, lookup_replicate_2 by done.
  repeat case_decide; try done; lia.
Qed.

Lemma system_matrix_lookup (n i : nat) :
  (i < n)%nat ->
  system_matrix n !! i =
  Some (if is_interior n i then stencil_row n i else unit_row n i).
Proof. intros Hi. unfold system_matrix. by rewrite lookup_fmap_seq. Qed.

End Solve.

(** ** Sum and support of a row *)

Module RowMeasure.

Lemma row_sum_zero (n : nat) : row_sum (replicate n 0) = 0.
Proof. induction n as [|n IH]; cbn; [done|]. unfold row_sum in IH. rewrite IH. lra. Qed.

Lemma nonzero_count_zero (n : nat) : nonzero_count (replicate n 0) = 0%nat.
Proof.
  unfold nonzero_count. induction n as [|n IH]; [done|].
  cbn [replicate]. by rewrite filter_cons_False by (intros H; by apply H).
Qed.

Lemma row_sum_insert (r : vec) (j : nat) (c : R) :
  (j < length r)%nat -> row_sum (<[j := c]> r) = row_sum r + (c - r !!! j).
Proof.
  revert j; induction r as [|c0 r IH]; intros j Hj; [simpl in Hj; lia|].
  destruct j as [|j].
  - change (<[0%nat := c]> (c0 :: r)) with (c :: r).
    change ((c0 :: r) !!! 0%nat) with c0. cbn. lra.
  - change (<[S j := c]> (c0 :: r)) with (c0 :: <[j := c]> r).
    change ((c0 :: r) !!! S j) with (r !!! j).
    unfold row_sum in *. cbn [foldr]. rewrite IH by (simpl in Hj; lia). lra.
Qed.

Lemma nonzero_count_insert (r : vec) (j : nat) (c : R) :
  r !! j = Some 0 -> c <> 0 ->
  nonzero_count (<[j := c]> r) = S (nonzero_count r).
Proof.
  unfold nonzero_count.
  revert j; induction r as [|c0 r IH]; intros j Hj Hc; [done|].
  destruct j as [|j].
  - injection Hj as ->.
    change (<[0%nat := c]> (0 :: r)) with (c :: r).
    rewrite filter_cons_True by done.
    by rewrite filter_cons_False by (intros H; by apply H).
  - change (<[S j := c]> (c0 :: r)) with (c0 :: <[j := c]> r).
    change ((c0 :: r) !! S j) with (r !! j) in Hj.
    destruct (decide (c0 <> 0)).
    + rewrite !filter_cons_True by done. cbn [length]. by rewrite IH.
    + rewrite !filter_cons_False by done. by rewrite IH.
Qed.

(** The stencil coefficients sum to zero and are the only non-zero entries
    of an interior row. *)
Lemma stencil_row_sum (n i : nat) :
  (2 <= i)%nat -> (i + 2 < n)%nat -> row_sum (stencil_row n i) = 0.
Proof.
  intros H2 Hn. unfold stencil_row.
  rewrite !row_sum_insert by (rewrite ?length_insert, length_replicate; lia).
  rewrite !list_lookup_total_insert_ne by lia.
  rewrite row_sum_zero, !lookup_total_replicate_2 by lia. lra.
Qed.

Lemma stencil_row_support (n i : nat) :
  (2 <= i)%nat -> (i + 2 < n)%nat -> nonzero_count (stencil_row n i) = 5%nat.
Proof.
  intros H2 Hn. unfold stencil_row.
  repeat (rewrite nonzero_count_insert;
          [| rewrite ?list_lookup_insert_ne by lia;
             apply lookup_replicate_2; lia
           | lra]).
  by rewrite nonzero_count_zero.
Qed.

(** An identity row has the single entry one. *)
Lemma unit_row_sum (n i : nat) : (i < n)%nat -> row_sum (unit_row n i) = 1.
Proof.
  intros Hi. unfold unit_row.
  rewrite row_sum_insert by (rewrite length_replicate; lia).
  rewrite row_sum_zero, lookup_total_replicate_2 by lia. lra.
Qed.

Lemma unit_row_support (n i : nat) :
  (i < n)%nat -> nonzero_count (unit_row n i) = 1%nat.
Proof.
  intros Hi. unfold unit_row.
  rewrite nonzero_count_insert; [| by apply lookup_replicate_2 | lra].
  by rewrite nonzero_count_zero.
Qed.

End RowMeasure.

(** ** Boundary values and the zero right-hand side *)

Module Boundary.
Import CentralDifference Rows Nonsingular Solve.

Lemma zero_solves (n : nat) : solves (system_matrix n) (replicate n 0) (replicate n 0).
Proof.
  apply solves_rows; [apply length_replicate|].
  split; [apply length_replicate|]. intros i Hi. unfold row_product.
  destruct (is_interior n i) eqn:Hint.
  - apply interior_bounds in Hint.
    rewrite !lookup_total_replicate_2 by lia. lra.
  - done.
Qed.

Lemma gaussian_load_zero (x c s : R) : gaussian_load 0 x c s = 0.
Proof. unfold gaussian_load, Rdiv. ring. Qed.

(** [b] is identically zero when there is no load or no interior row. *)
Lemma system_rhs_zero (p : params) (n : nat) :
  P p = 0 \/ (n <= 4)%nat -> system_rhs p n = replicate n 0.
Proof.
  intros H. rewrite (replicate_fmap_seq 0 n). unfold system_rhs.
  apply fmap_seq_ext. intros i Hi. unfold rhs_entry.
  destruct (is_interior n i) eqn:Hint; [|done].
  apply interior_bounds in Hint. destruct H as [H|H]; [|lia].
  rewrite H, gaussian_load_zero. unfold Rdiv. ring.
Qed.

Lemma zero_rhs_zero_solution (p : params) (n : nat) (y : vec) :
  P p = 0 \/ (n <= 4)%nat ->
  solves (system_matrix n) (system_rhs p n) y -> y = replicate n 0.
Proof.
  intros H Hy. rewrite (system_rhs_zero p n H) in Hy.
  apply (system_solution_unique n (replicate n 0));
    [apply length_replicate | apply zero_solves | done].
Qed.

(** The identity rows force the boundary entries of the solution. *)
Lemma boundary_entries_zero (p : params) (n i : nat) (y : vec) :
  solves (system_matrix n) (system_rhs p n) y ->
  (i < n)%nat -> is_interior n i = false -> y !! i = Some 0.
Proof.
  intros [Hlen Hy]%solves_rows Hi Hint; [|apply length_system_rhs].
  specialize (Hy i Hi). unfold row_product in Hy. rewrite Hint in Hy.
  unfold system_rhs in Hy. rewrite lookup_total_fmap_seq in Hy by done.
  unfold rhs_entry in Hy. rewrite Hint in Hy.
  rewrite <- Hy. apply list_lookup_lookup_total_lt. lia.
Qed.

End Boundary.

(** ** Behaviour of the marched deflection *)

Module Growth.
Import Marching.

Lemma load_term_zero (p : params) (x : R) : P p = 0 -> load_term p x = 0.
Proof.
  intros HP. unfold load_term. rewrite HP, Boundary.gaussian_load_zero.
  unfold Rdiv. ring.
Qed.

Lemma next_rest (p : params) (x : R) :
  P p = 0 -> next p x (0, 0, 0, 0) = (0, 0, 0, 0).
Proof.
  intros HP. unfold next, ode_step. rewrite !load_term_zero by done.
  repeat f_equal; unfold Rdiv; ring.
Qed.

(** Without load the beam stays at rest. *)
Lemma trajectory_rest (p : params) (xs : list R) :
  P p = 0 -> trajectory p (0, 0, 0, 0) xs = replicate (length xs) 0.
Proof.
  intros HP. induction xs as [|x xs IH]; [done|].
  cbn [trajectory length replicate deflection]. by rewrite next_rest, IH.
Qed.

Lemma sqrt_2PI_pos : 0 < sqrt (2 * PI).
Proof. apply sqrt_lt_R0. pose proof PI_RGT_0. lra. Qed.

Lemma gaussian_load_pos (P0 x c s : R) :
  0 < P0 -> 0 < s -> 0 < gaussian_load P0 x c s.
Proof.
  intros HP Hs. unfold gaussian_load.
  apply Rdiv_lt_0_compat.
  - apply Rmult_lt_0_compat; [done | apply exp_pos].
  - apply Rmult_lt_0_compat; [done | apply sqrt_2PI_pos].
Qed.

Lemma load_term_pos (p : params) (x : R) :
  0 < P p -> 0 < spread p -> 0 < EI p -> 0 < load_term p x.
Proof.
  intros HP Hs HE. unfold load_term.
  apply Rdiv_lt_0_compat; [by apply gaussian_load_pos | done].
Qed.

(** Under a positive load every step keeps the state non-negative and
    strictly raises the deflection. *)
Lemma ode_step_grows (q0 qm q1 h : R) (Y : state) :
  0 < h -> 0 < q0 -> 0 < qm -> 0 < q1 -> nonneg Y ->
  nonneg (ode_step q0 qm q1 h Y) /\
  deflection Y < deflection (ode_step q0 qm q1 h Y).
Proof.
  intros Hh H0 Hm H1. destruct Y as [[[y1 y2] y3] y4].
  intros (N1 & N2 & N3 & N4). cbn [ode_step nonneg deflection].
  assert (0 <= h * y2) by (apply Rmult_le_pos; lra).
  assert (0 <= h * y3) by (apply Rmult_le_pos; lra).
  assert (0 <= h * y4) by (apply Rmult_le_pos; lra).
  assert (0 < h * q0) by (apply Rmult_lt_0_compat; lra).
  assert (0 < h * qm) by (apply Rmult_lt_0_compat; lra).
  assert (0 < h * q1) by (apply Rmult_lt_0_compat; lra).
  assert (0 <= h * (h * y3)) by (apply Rmult_le_pos; lra).
  assert (0 <= h * (h * y4)) by (apply Rmult_le_pos; lra).
  assert (0 < h * (h * q0)) by (apply Rmult_lt_0_compat; lra).
  assert (0 < h * (h * qm)) by (apply Rmult_lt_0_compat; lra).
  assert (0 <= h * (h * (h * y4))) by (apply Rmult_le_pos; lra).
  assert (0 < h * (h * (h * q0))) by (apply Rmult_lt_0_compat; lra).
  assert (0 <= h * (h * (h * (h * y4)))) by (apply Rmult_le_pos; lra).
  assert (0 < h * (h * (h * (h * q0)))) by (apply Rmult_lt_0_compat; lra).
  assert (0 < h * (h * (h * qm))) by (apply Rmult_lt_0_compat; lra).
  repeat split.
  - match goal with |- 0 <= ?e => replace e with
      (y1 + h * y2 + h * (h * y3) / 2 + h * (h * (h * y4)) / 6
       + h * (h * (h * (h * q0))) / 24) by field end. lra.
  - match goal with |- 0 <= ?e => replace e with
      (y2 + h * y3 + h * (h * y4) / 2 + h * (h * (h * q0)) / 12
       + h * (h * (h * qm)) / 12) by field end. lra.
  - match goal with |- 0 <= ?e => replace e with
      (y3 + h * y4 + h * (h * q0) / 6 + h * (h * qm) / 3) by field end. lra.
  - match goal with |- 0 <= ?e => replace e with
      (y4 + h * q0 / 6 + 2 * (h * qm) / 3 + h * q1 / 6) by field end. lra.
  - match goal with |- _ < ?e => replace e with
      (y1 + h * y2 + h * (h * y3) / 2 + h * (h * (h * y4)) / 6
       + h * (h * (h * (h * q0))) / 24) by field end. lra.
Qed.


Section PositiveLoad.
Variable p : params.
Hypothesis HP : 0 < P p.
Hypothesis Hs : 0 < spread p.
Hypothesis HE : 0 < EI p.
Hypothesis Hh : 0 < dx p.

Lemma next_grows (x : R) (Y : state) :
  nonneg Y -> nonneg (next p x Y) /\ deflection Y < deflection (next p x Y).
Proof.
  intros HY. unfold next.
  apply ode_step_grows; try done; by apply load_term_pos.
Qed.

(** Every recorded deflection is at least the one of the starting state. *)
Lemma trajectory_lower (xs : list R) (Y : state) (j : nat) (v : R) :
  nonneg Y -> trajectory p Y xs !! j = Some v -> deflection Y <= v.
Proof.
  revert Y j; induction xs as [|x xs IH]; intros Y j HY Hj; [done|].
  destruct j as [|j].
  - injection Hj as <-. lra.
  - cbn [trajectory] in Hj. change (trajectory p (next p x Y) xs !! j = Some v) in Hj.
    destruct (next_grows x Y HY) as [HY' Hlt].
    pose proof (IH _ _ HY' Hj). lra.
Qed.

(** The recorded deflections increase strictly along the span. *)
Lemma trajectory_increasing (xs : list R) (Y : state) (i j : nat) (u v : R) :
  nonneg Y -> (i < j)%nat ->
  trajectory p Y xs !! i = Some u -> trajectory p Y xs !! j = Some v -> u < v.
Proof.
  revert Y i j; induction xs as [|x xs IH]; intros Y i j HY Hij Hi Hj; [done|].
  destruct j as [|j]; [lia|].
  cbn [trajectory] in Hi, Hj.
  change (trajectory p (next p x Y) xs !! j = Some v) in Hj.
  destruct (next_grows x Y HY) as [HY' Hlt].
  destruct i as [|i].
  - injection Hi as <-.
    pose proof (trajectory_lower _ _ _ _ HY' Hj). lra.
  - change (trajectory p (next p x Y) xs !! i = Some u) in Hi.
    apply (IH (next p x Y) i j); [done | lia | done | done].
Qed.

End PositiveLoad.

Lemma nonneg_rest : nonneg (0, 0, 0, 0).
Proof. cbn. lra. Qed.

(** ** The arange grid *)

Lemma ceil_ge (r : R) : r <= IZR (ceil r).
Proof.
  unfold ceil. rewrite minus_IZR.
  destruct (archimed (- r)) as [_ H]. lra.
Qed.

Lemma ceil_IZR (z : Z) : ceil (IZR z) = z.
Proof.
  unfold ceil.
  rewrite <- (tech_up (- IZR z) (1 - z)); [lia | |]; rewrite minus_IZR; lra.
Qed.

Lemma length_rk4_grid (p : params) :
  length (rk4_grid p) = Z.to_nat (ceil ((L p + dx p - 0) / dx p)).
Proof. unfold rk4_grid. by rewrite length_fmap, length_seq. Qed.

Lemma rk4_grid_lookup (p : params) (i : nat) :
  (i < length (rk4_grid p))%nat -> rk4_grid p !! i = Some (0 + INR i * dx p).
Proof.
  intros Hi. rewrite length_rk4_grid in Hi. unfold rk4_grid.
  by rewrite lookup_fmap_seq.
Qed.

(** With [L > 0] and [dx > 0] the grid has at least two samples. *)
Lemma rk4_grid_two (p : params) :
  0 < L p -> 0 < dx p -> (2 <= length (rk4_grid p))%nat.
Proof.
  intros HL Hdx. rewrite length_rk4_grid.
  pose proof (ceil_ge ((L p + dx p - 0) / dx p)) as Hc.
  assert (1 < (L p + dx p - 0) / dx p).
  { apply (Rmult_lt_reg_r (dx p)); [done|]. field_simplify; lra. }
  assert (1 < IZR (ceil ((L p + dx p - 0) / dx p))) as Hlt by lra.
  apply lt_IZR in Hlt. lia.
Qed.

Lemma script_grid_length : length (rk4_grid script_params) = 101%nat.
Proof.
  rewrite length_rk4_grid. cbn [L dx script_params].
  replace ((10 + 0.1 - 0) / 0.1) with (IZR 101) by lra.
  by rewrite ceil_IZR.
Qed.


Lemma first_step_deflection (p : params) (x : R) :
  deflection (next p x (0, 0, 0, 0)) = dx p ^ 4 * load_term p x / 24.
Proof. unfold next, ode_step, deflection. field. Qed.

Lemma sqrt_2PI_lt_3 : sqrt (2 * PI) < 3.
Proof.
  replace 3 with (sqrt (3 * 3)) by (apply sqrt_square; lra).
  apply sqrt_lt_1_alt. pose proof PI_RGT_0. pose proof PI_4. lra.
Qed.

(** On the script's constants the deflection grows strictly from sample to
    sample. *)
Lemma script_trajectory_increasing (i j : nat) (u v : R) :
  (i < j)%nat ->
  trajectory script_params (0, 0, 0, 0) (rk4_grid script_params) !! i = Some u ->
  trajectory script_params (0, 0, 0, 0) (rk4_grid script_params) !! j = Some v ->
  u < v.
Proof.
  apply trajectory_increasing; try apply nonneg_rest; simpl; lra.
Qed.

Lemma trajectory_head (p : params) (xs : list R) :
  (0 < length xs)%nat -> trajectory p (0, 0, 0, 0) xs !! 0%nat = Some 0.
Proof. destruct xs; cbn; [lia | done]. Qed.


(** The script's RK4 run: grid, length and shape of the curve. *)
Lemma script_run :
  let ys := trajectory script_params (0, 0, 0, 0) (rk4_grid script_params) in
  RK4.beam_deflection_rk4 script_params = Ok (rk4_grid script_params, ys) /\
  length ys = 101%nat /\ ys !! 0%nat = Some 0 /\
  forall j v, ys !! j = Some v -> 0 <= v.
Proof.
  intros ys.
  assert (Hlen : length ys = 101%nat).
  { unfold ys. by rewrite Marching.length_trajectory, script_grid_length. }
  assert (H0 : ys !! 0%nat = Some 0).
  { apply trajectory_head. rewrite script_grid_length. lia. }
  split; [apply Marching.beam_deflection_rk4_value; simpl; lra|].
  split; [done|]. split; [done|].
  intros j v Hv. destruct j as [|j].
  - rewrite H0 in Hv. injection Hv as <-. lra.
  - pose proof (script_trajectory_increasing 0 (S j) 0 v ltac:(lia) H0 Hv). lra.
Qed.

Lemma script_grid_lookup (i : nat) :
  (i < 101)%nat -> rk4_grid script_params !! i = Some (INR i * 0.1).
Proof.
  intros Hi. rewrite rk4_grid_lookup by (rewrite script_grid_length; lia).
  f_equal. simpl. lra.
Qed.

End Growth.

(** ** The linspace grid *)

Lemma grid_value (len : R) (n i : nat) :
  (2 <= n)%nat -> (i < n)%nat ->
  grid len n i = INR i * (len / IZR (Z.of_nat n - 1)).
Proof.
  intros Hn Hi. unfold grid.
  assert (E : INR (n - 1) = IZR (Z.of_nat n - 1)).
  { rewrite INR_IZR_INZ. f_equal. lia. }
  assert (Hpos : 0 < INR (n - 1)).
  { apply lt_0_INR. lia. }
  rewrite <- E.
  destruct (Nat.ltb_spec 1 n); [|lia].
  destruct (Nat.eqb_spec i (n - 1)) as [->|]; cbn [andb].
  - field. lra.
  - unfold Rdiv. ring.
Qed.

(** * The claims *)

Import RK4 CentralDifference.

(** C1.  For any right-hand side [f], position [x], state [Y] and step [h]
    whose four stage values [k1 = f(x, Y)], [k2 = f(x + h/2, Y + h k1/2)],
    [k3 = f(x + h/2, Y + h k2/2)], [k4 = f(x + h, Y + h k3)] have the shape
    of [Y], [rk4_step] returns exactly
    [Y + (h/6)(k1 + 2 k2 + 2 k3 + k4)]. *)
Theorem C1_rk4_step (f : R -> vec -> result vec) (x h : R) (Y k1 k2 k3 k4 : vec) :
  f x Y = Ok k1 ->
  f (x + h / 2) (vplus Y (vscale (h / 2) k1)) = Ok k2 ->
  f (x + h / 2) (vplus Y (vscale (h / 2) k2)) = Ok k3 ->
  f (x + h) (vplus Y (vscale h k3)) = Ok k4 ->
  length k1 = length Y -> length k2 = length Y ->
  length k3 = length Y -> length k4 = length Y ->
  rk4_step f x Y h = Ok (rk4_update Y k1 k2 k3 k4 h).
Proof.
  intros F1 F2 F3 F4 L1 L2 L3 L4. unfold rk4_step.
  assert (Hshape : forall u v : vec,
            length u = length Y -> length v = length Y ->
            add u v = Ok (vplus u v) /\ length (vplus u v) = length Y).
  { intros u v Hu Hv. split.
    - apply Marching.add_same_shape. congruence.
    - rewrite Marching.length_vplus; congruence. }
  assert (Hscale : forall (c : R) (v : vec),
            length v = length Y -> length (vscale c v) = length Y).
  { intros c v Hv. by rewrite Marching.length_vscale. }
  rewrite F1. cbn [bind]. rewrite Marching.half_step.
  rewrite (proj1 (Hshape Y (vscale (h / 2) k1) eq_refl (Hscale _ _ L1))).
  cbn [bind]. rewrite F2. cbn [bind]. rewrite Marching.half_step.
  rewrite (proj1 (Hshape Y (vscale (h / 2) k2) eq_refl (Hscale _ _ L2))).
  cbn [bind]. rewrite F3. cbn [bind].
  change (smul h k3) with (vscale h k3).
  rewrite (proj1 (Hshape Y (vscale h k3) eq_refl (Hscale _ _ L3))).
  cbn [bind]. rewrite F4. cbn [bind].
  change (smul 2 k2) with (vscale 2 k2). change (smul 2 k3) with (vscale 2 k3).
  destruct (Hshape k1 (vscale 2 k2) L1 (Hscale _ _ L2)) as [-> S1].
  cbn [bind].
  destruct (Hshape _ (vscale 2 k3) S1 (Hscale _ _ L3)) as [-> S2].
  cbn [bind].
  destruct (Hshape _ k4 S2 L4) as [-> S3].
  cbn [bind].
  change (smul (h / 6)) with (vscale (h / 6)).
  by rewrite (proj1 (Hshape Y _ eq_refl (Hscale (h / 6) _ S3))).
Qed.

(** The first step of the script's run. *)
Lemma C1_rk4_step_witness :
  exists Z : vec,
    rk4_step (system_of_odes script_params) 0 [0; 0; 0; 0] 0.1 = Ok Z /\
    length Z = 4%nat.
Proof.
  eexists. split.
  - eapply (C1_rk4_step (system_of_odes script_params) 0 0.1 [0; 0; 0; 0]);
      reflexivity.
  - reflexivity.
Defined.

(** C2.  For every [N >= 5] the central-difference solver assembles the
    specified system: on the uniform grid [x_i = i * dx] with
    [dx = L / (N - 1)], every interior entry of [b] is
    [w(x_i) * dx^4 / EI] with the load sampled at spread 0.1; every interior
    row [2 <= i <= N - 3] of [A] has the coefficients [1, -4, 6, -4, 1] at
    columns [i - 2 .. i + 2] and zeros elsewhere; rows [0, 1, N - 2, N - 1]
    are identity rows and the matching entries of [b] are zero. *)
Theorem C2_assembled_system (p : params) :
  (5 <= N p)%Z ->
  let n := Z.to_nat (N p) in
  let h := L p / IZR (N p - 1) in
  exists (xs : vec) (A : matrix) (b : vec),
    assemble p = Ok (xs, A, b) /\
    length xs = n /\ length A = n /\ length b = n /\
    (forall i, (i < n)%nat -> xs !! i = Some (INR i * h)) /\
    (forall i, (2 <= i <= n - 3)%nat ->
       b !! i = Some (gaussian_load (P p) (INR i * h) (a p) 0.1 * h ^ 4 / EI p) /\
       exists row : vec,
         A !! i = Some row /\ length row = n /\
         row !! (i - 2)%nat = Some 1 /\ row !! (i - 1)%nat = Some (-4) /\
         row !! i = Some 6 /\
         row !! (i + 1)%nat = Some (-4) /\ row !! (i + 2)%nat = Some 1 /\
         forall j, (j < n)%nat -> (j < i - 2 \/ i + 2 < j)%nat ->
                   row !! j = Some 0) /\
    (forall i, (i = 0 \/ i = 1 \/ i = n - 2 \/ i = n - 1)%nat ->
       b !! i = Some 0 /\
       exists row : vec,
         A !! i = Some row /\ length row = n /\
         forall j, (j < n)%nat ->
                   row !! j = Some (if decide (j = i) then 1 else 0)).
Proof.
  intros HN n h.
  assert (HNn : N p = Z.of_nat n) by (unfold n; lia).
  assert (Hn : (5 <= n)%nat) by lia.
  exists (grid (L p) n <$> seq 0 n), (system_matrix n), (system_rhs p n).
  split; [apply Assembly.assemble_closed_form; [done | lia]|].
  split; [by rewrite length_fmap, length_seq|].
  split; [apply Rows.length_system|].
  split; [apply Solve.length_system_rhs|].
  assert (Hgrid : forall i, (i < n)%nat -> grid (L p) n i = INR i * h).
  { intros i Hi. rewrite grid_value by lia. unfold h. by rewrite HNn. }
  split; [|split].
  - intros i Hi. rewrite lookup_fmap_seq by done. f_equal. by apply Hgrid.
  - intros i Hi. split.
    + unfold system_rhs. rewrite lookup_fmap_seq by lia. f_equal.
      unfold rhs_entry.
      rewrite (proj2 (Nonsingular.interior_bounds n i)) by lia.
      rewrite Hgrid by lia. fold h. unfold Rdiv. ring.
    + exists (stencil_row n i).
      rewrite Solve.system_matrix_lookup by lia.
      rewrite (proj2 (Nonsingular.interior_bounds n i)) by lia.
      split; [done|]. split; [apply Assembly.length_stencil_row|].
      rewrite !Solve.stencil_row_lookup by lia.
      repeat split; try (repeat case_decide; first [done | lia]).
      intros j Hj Hout. rewrite Solve.stencil_row_lookup by lia.
      repeat case_decide; first [done | lia].
  - intros i Hi. split.
    + unfold system_rhs. rewrite lookup_fmap_seq by lia. f_equal.
      unfold rhs_entry.
      by rewrite (proj2 (Nonsingular.not_interior_bounds n i)) by lia.
    + exists (unit_row n i).
      rewrite Solve.system_matrix_lookup by lia.
      rewrite (proj2 (Nonsingular.not_interior_bounds n i)) by lia.
      split; [done|]. split; [apply Assembly.length_unit_row|].
      intros j Hj. apply Solve.unit_row_lookup; lia.
Qed.

(** The script's grid of 101 points. *)
Lemma C2_assembled_system_witness :
  exists (xs : vec) (A : matrix) (b : vec),
    assemble script_params = Ok (xs, A, b) /\ length A = 101%nat.
Proof.
  destruct (C2_assembled_system script_params)
    as (xs & A & b & Hasm & _ & HA & _).
  - simpl. lia.
  - exists xs, A, b. split; [exact Hasm | exact HA].
Defined.

(** C3.  With zero point load ([P = 0]) and [L > 0], [EI > 0],
    [spread > 0], [dx > 0], [N >= 5], both solvers return a curve whose
    deflections are all zero. *)
Theorem C3_zero_load (p : params) :
  P p = 0 -> 0 < L p -> 0 < EI p -> 0 < spread p -> 0 < dx p -> (5 <= N p)%Z ->
  (exists (xs : vec) (ys : list R),
     beam_deflection_rk4 p = Ok (xs, ys) /\
     length ys = length xs /\ (0 < length ys)%nat /\
     Forall (fun y => y = 0) ys) /\
  (exists (xs ys : vec),
     beam_deflection_central_difference p = Ok (xs, ys) /\
     length ys = Z.to_nat (N p) /\ length xs = Z.to_nat (N p) /\
     Forall (fun y => y = 0) ys).
Proof.
  intros HP HL HE Hs Hdx HN. split.
  - exists (rk4_grid p), (trajectory p (0, 0, 0, 0) (rk4_grid p)).
    split; [apply Marching.beam_deflection_rk4_value; lra|].
    split; [apply Marching.length_trajectory|].
    split.
    { rewrite Marching.length_trajectory.
      pose proof (Growth.rk4_grid_two p HL Hdx). lia. }
    rewrite Growth.trajectory_rest by done.
    apply Forall_forall. by intros y ->%elem_of_replicate_inv.
  - set (n := Z.to_nat (N p)).
    destruct (Solve.central_difference_value p n) as (y & Hcd & Hy);
      [unfold n; lia | unfold n; lia |].
    apply (Boundary.zero_rhs_zero_solution p n) in Hy; [|by left].
    exists (grid (L p) n <$> seq 0 n), y.
    split; [done|]. rewrite Hy.
    split; [apply length_replicate|].
    split; [by rewrite length_fmap, length_seq|].
    apply Forall_forall. by intros v ->%elem_of_replicate_inv.
Qed.

(** The script's beam without load. *)
Lemma C3_zero_load_witness :
  (exists (xs : vec) (ys : list R),
     beam_deflection_rk4 (set_load 0 script_params) = Ok (xs, ys) /\
     Forall (fun y => y = 0) ys) /\
  (exists (xs ys : vec),
     beam_deflection_central_difference (set_load 0 script_params) = Ok (xs, ys) /\
     Forall (fun y => y = 0) ys).
Proof.
  destruct (C3_zero_load (set_load 0 script_params))
    as [(xs & ys & Hrk & _ & _ & Hz) (xs' & ys' & Hcd & _ & _ & Hz')].
  - reflexivity.
  - simpl. lra.
  - simpl. lra.
  - simpl. lra.
  - simpl. lra.
  - simpl. lia.
  - split; [exists xs, ys | exists xs', ys']; split; assumption.
Defined.

(** C4 as stated fails for the RK4 curve at [x = L].  On the script's own
    constants the deflection at the last sample [x = L = 10] is positive
    and strictly larger than at every other sample; and for any tolerance
    there are valid parameters whose RK4 deflection at [x = L] exceeds
    it. *)
Lemma C4_counterexample :
  (exists (xs : vec) (ys : list R) (yL : R),
     beam_deflection_rk4 script_params = Ok (xs, ys) /\
     xs !! 100%nat = Some (L script_params) /\ ys !! 100%nat = Some yL /\
     0 < yL /\
     forall j v, (j < 100)%nat -> ys !! j = Some v -> v < yL) /\
  (forall tol : R,
     exists (p : params) (xs : vec) (ys : list R) (i : nat) (y : R),
       valid_params p /\ beam_deflection_rk4 p = Ok (xs, ys) /\
       xs !! i = Some (L p) /\ ys !! i = Some y /\ tol < Rabs y).
Proof.
  split.
  - set (ys := trajectory script_params (0, 0, 0, 0) (rk4_grid script_params)).
    assert (Hlen : length ys = 101%nat).
    { unfold ys. by rewrite Marching.length_trajectory, Growth.script_grid_length. }
    destruct (lookup_lt_is_Some_2 ys 100 ltac:(lia)) as [yL HyL].
    exists (rk4_grid script_params), ys, yL.
    split; [apply Marching.beam_deflection_rk4_value; simpl; lra|].
    split.
    { rewrite Growth.rk4_grid_lookup by (rewrite Growth.script_grid_length; lia).
      f_equal. rewrite INR_IZR_INZ. change (Z.of_nat 100) with 100%Z.
      simpl. lra. }
    split; [done|].
    assert (H0 : ys !! 0%nat = Some 0).
    { apply Growth.trajectory_head. rewrite Growth.script_grid_length. lia. }
    split.
    + apply (Growth.script_trajectory_increasing 0 100); [lia | done | done].
    + intros j v Hj Hv.
      apply (Growth.script_trajectory_increasing j 100); [lia | done | done].
  - intros tol. set (p := end_loaded tol).
    assert (Hgrid : rk4_grid p = [0 + INR 0 * 1; 0 + INR 1 * 1]).
    { unfold rk4_grid. cbn [L dx p end_loaded].
      replace ((1 + 1 - 0) / 1) with (IZR 2) by lra.
      by rewrite Growth.ceil_IZR. }
    exists p, (rk4_grid p), (trajectory p (0, 0, 0, 0) (rk4_grid p)), 1%nat,
      (deflection (next p (0 + INR 0 * 1) (0, 0, 0, 0))).
    pose proof (Rabs_pos tol) as Habs.
    split.
    { unfold valid_params. simpl. repeat split; first [lra | lia]. }
    split; [apply Marching.beam_deflection_rk4_value; simpl; lra|].
    rewrite Hgrid. split; [cbn; f_equal; lra|].
    split; [done|].
    rewrite Growth.first_step_deflection.
    unfold load_term, gaussian_load. cbn [P EI a spread dx p end_loaded].
    replace (- (0 + INR 0 * 1 - 0) ^ 2 / (2 * 1 ^ 2)) with 0
      by (simpl INR; field).
    rewrite exp_0.
    pose proof Growth.sqrt_2PI_pos as Hc0.
    pose proof Growth.sqrt_2PI_lt_3 as Hc3.
    set (c := sqrt (2 * PI)) in *.
    replace (1 ^ 4 * (72 * (Rabs tol + 1) * 1 / (1 * c) / 1) / 24)
      with (3 * (Rabs tol + 1) / c) by (field; lra).
    assert (Hgt : Rabs tol + 1 < 3 * (Rabs tol + 1) / c).
    { apply (Rmult_lt_reg_r c); [done|].
      replace (3 * (Rabs tol + 1) / c * c) with (3 * (Rabs tol + 1))
        by (field; lra).
      nra. }
    rewrite Rabs_pos_eq by lra.
    pose proof (Rle_abs tol). lra.
Qed.

(** C4, amended.  For valid parameters the central-difference curve is
    exactly zero at both endpoints [x = 0] and [x = L], and the RK4 curve is
    exactly zero at [x = 0]. *)
Theorem C4_endpoints (p : params) :
  valid_params p ->
  (exists (xs : vec) (ys : list R),
     beam_deflection_rk4 p = Ok (xs, ys) /\
     xs !! 0%nat = Some 0 /\ ys !! 0%nat = Some 0) /\
  (exists (xs ys : vec),
     beam_deflection_central_difference p = Ok (xs, ys) /\
     xs !! 0%nat = Some 0 /\ ys !! 0%nat = Some 0 /\
     xs !! (Z.to_nat (N p) - 1)%nat = Some (L p) /\
     ys !! (Z.to_nat (N p) - 1)%nat = Some 0).
Proof.
  intros (HL & HE & Ha & Hs & Hdx & HN). split.
  - exists (rk4_grid p), (trajectory p (0, 0, 0, 0) (rk4_grid p)).
    pose proof (Growth.rk4_grid_two p HL Hdx) as Hlen.
    split; [apply Marching.beam_deflection_rk4_value; lra|].
    split.
    + rewrite Growth.rk4_grid_lookup by lia. f_equal. simpl. lra.
    + apply Growth.trajectory_head. lia.
  - set (n := Z.to_nat (N p)).
    destruct (Solve.central_difference_value p n) as (y & Hcd & Hy);
      [unfold n; lia | unfold n; lia |].
    assert (Hn : (5 <= n)%nat) by (unfold n; lia).
    exists (grid (L p) n <$> seq 0 n), y.
    split; [done|].
    split.
    { rewrite lookup_fmap_seq by lia. f_equal.
      rewrite grid_value by lia. simpl. lra. }
    split.
    { apply (Boundary.boundary_entries_zero p n); [done | lia |].
      apply Nonsingular.not_interior_bounds. lia. }
    split.
    { rewrite lookup_fmap_seq by lia. f_equal. unfold grid.
      destruct (Nat.ltb_spec 1 n); [|lia].
      by rewrite Nat.eqb_refl. }
    apply (Boundary.boundary_entries_zero p n); [done | lia |].
    apply Nonsingular.not_interior_bounds. lia.
Qed.

(** The script's constants. *)
Lemma C4_endpoints_witness :
  exists (xs ys : vec),
    beam_deflection_central_difference script_params = Ok (xs, ys) /\
    ys !! 0%nat = Some 0 /\ ys !! 100%nat = Some 0.
Proof.
  destruct (C4_endpoints script_params)
    as [_ (xs & ys & Hcd & _ & H0 & _ & HL)].
  - unfold valid_params. simpl. repeat split; first [lra | lia].
  - exists xs, ys. split; [exact Hcd|]. split; [exact H0 | exact HL].
Defined.

(** Negation and Python's float square. *)
Module FloatFacts.
Import PrimFloat FloatOps FloatAxioms SpecFloat Float64.

Lemma abs_opp (v : float) : abs (- v) = abs v.
Proof.
  apply Prim2SF_inj. rewrite !abs_spec, opp_spec.
  by destruct (Prim2SF v).
Qed.

Lemma is_infinity_opp (v : float) : is_infinity (- v) = is_infinity v.
Proof. unfold is_infinity. by rewrite abs_opp. Qed.

Lemma is_zero_opp (v : float) : (- v =? 0)%float = (v =? 0)%float.
Proof.
  rewrite !eqb_spec, opp_spec.
  destruct (Prim2SF v) as [s | s | | s m e]; try reflexivity.
  all: destruct s; reflexivity.
Qed.

Lemma SFeqb_finite_refl (s : bool) (m : positive) (e : Z) :
  SFeqb (S754_finite s m e) (S754_finite s m e) = true.
Proof.
  unfold SFeqb, SFcompare.
  assert (Hm : PosDef.Pos.compare_cont Eq m m = Eq)
    by apply (Pos.compare_cont_refl m Eq).
  destruct s; rewrite Z.compare_refl, Hm; reflexivity.
Qed.

Lemma is_nan_spec (v : float) :
  is_nan v = match Prim2SF v with S754_nan => true | _ => false end.
Proof.
  unfold is_nan. rewrite eqb_spec.
  destruct (Prim2SF v) as [s | s | | s m e]; try reflexivity.
  - by destruct s.
  - by rewrite SFeqb_finite_refl.
Qed.

Lemma is_nan_opp (v : float) : is_nan (- v) = is_nan v.
Proof.
  rewrite !is_nan_spec, opp_spec. by destruct (Prim2SF v).
Qed.

Lemma opp_nan (v : float) : is_nan v = true -> (- v)%float = v.
Proof.
  rewrite is_nan_spec. intros H. apply Prim2SF_inj. rewrite opp_spec.
  by destruct (Prim2SF v).
Qed.

(** Python's square depends on the absolute value only. *)
Lemma py_pow2_opp (c_pow2 : float -> float) (v : float) :
  py_pow2 c_pow2 (- v) = py_pow2 c_pow2 v.
Proof.
  unfold py_pow2.
  rewrite is_nan_opp, is_infinity_opp, is_zero_opp, abs_opp.
  destruct (is_nan v) eqn:Hnan; [|reflexivity].
  by rewrite opp_nan.
Qed.

(** Python's square raises [OverflowError] on the overflowing floats and
    returns on the others. *)
Lemma py_pow2_cases (c_pow2 : float -> float) (v : float) :
  (square_overflows c_pow2 v = true /\
   py_pow2 c_pow2 v = Raise OverflowError) \/
  (square_overflows c_pow2 v = false /\
   exists r, py_pow2 c_pow2 v = Ok r).
Proof.
  unfold square_overflows, py_pow2.
  destruct (is_nan v), (is_infinity v), (v =? 0)%float, (abs v =? 1)%float,
    (is_infinity (c_pow2 (abs v))); cbn [negb andb]; eauto.
Qed.

End FloatFacts.

Section LoadDomain.
Import PrimFloat Float64.
Local Open Scope float_scope.

(** C5 as stated fails, in all three parts.  On float64 values, for any
    library functions with [np.exp(-0.0) = 1], [np.exp(-inf) = 0], NumPy's
    [(-5.0) ** 2 = 25] and the C library's [pow(1e-200, 2.0) = 0]: for
    [spread = -1] (all arguments Python floats, [x = a = 0], [P = 1000])
    the load function raises nothing and returns the finite value
    -398.9422804014327; for [spread = 0] with a NumPy position ([x = 0],
    [a = 5]) it raises nothing and returns [nan]; and for the positive
    [spread = 1e-200] (all arguments Python floats, [x = a = 0]) it raises
    [ZeroDivisionError], because [spread ** 2] underflows to zero. *)
Lemma C5_counterexample :
  (forall np_exp c_pow2 np_pow2 : float -> float,
     np_exp (-0) = 1 ->
     gaussian_load_py np_exp c_pow2 np_pow2 1000
       (Arg PyFloat 0) (Arg PyFloat 0) (Arg PyFloat (-1))
     = Ok (-0x1.8ef13949d3d0bp+8)) /\
  (forall np_exp c_pow2 np_pow2 : float -> float,
     np_exp neg_infinity = 0 -> np_pow2 (-5) = 25 ->
     gaussian_load_py np_exp c_pow2 np_pow2 1000
       (Arg NpFloat 0) (Arg PyFloat 5) (Arg PyFloat 0)
     = Ok nan) /\
  (forall np_exp c_pow2 np_pow2 : float -> float,
     c_pow2 0x1.87e92154ef7acp-665 = 0 ->
     gaussian_load_py np_exp c_pow2 np_pow2 1000
       (Arg PyFloat 0) (Arg PyFloat 0) (Arg PyFloat 0x1.87e92154ef7acp-665)
     = Raise ZeroDivisionError).
Proof.
  split; [|split].
  - intros np_exp c_pow2 np_pow2 H. vm_compute in H. vm_compute.
    rewrite H. reflexivity.
  - intros np_exp c_pow2 np_pow2 H H5. vm_compute in H, H5.
    unfold gaussian_load_py, pow2. cbn [arg_kind arg_val mixed].
    replace (0 - 5) with (-5) by reflexivity. rewrite H5.
    vm_compute. rewrite H. reflexivity.
  - intros np_exp c_pow2 np_pow2 H.
    unfold gaussian_load_py, pow2, py_pow2. cbn [arg_kind arg_val mixed].
    replace (abs 0x1.87e92154ef7acp-665) with 0x1.87e92154ef7acp-665
      by reflexivity.
    rewrite H. reflexivity.
Qed.

(** C5, amended.  The load function makes no check of [spread]; it raises
    only where Python's own float arithmetic does.  It raises
    [OverflowError] exactly when a Python-float square, [(x - a) ** 2] or
    [spread ** 2], overflows, and [ZeroDivisionError] exactly when [x], [a]
    and [spread] are all Python floats, no square overflows and the divisor
    [2 * spread ** 2] evaluates to zero (a zero spread, or one whose square
    underflows).  Negating [spread] never changes whether, or what, it
    raises.  With a NumPy position or load position, and a spread whose
    square does not raise, it raises nothing and returns the float64 value
    of its formula, whatever the sign of [spread] and whether or not that
    value is finite. *)
Theorem C5_load_domain (np_exp c_pow2 np_pow2 : float -> float)
    (P0 : float) (x c s : arg) :
  let load := gaussian_load_py np_exp c_pow2 np_pow2 P0 in
  let k := mixed (arg_kind x) (arg_kind c) in
  let d := arg_val x - arg_val c in
  (forall e : error,
     load x c s = Raise e <->
     (e = OverflowError /\ k = PyFloat /\
      square_overflows c_pow2 d = true) \/
     (e = OverflowError /\
      (k = NpFloat \/ square_overflows c_pow2 d = false) /\
      arg_kind s = PyFloat /\ square_overflows c_pow2 (arg_val s) = true) \/
     (e = ZeroDivisionError /\ k = PyFloat /\ arg_kind s = PyFloat /\
      square_overflows c_pow2 d = false /\
      exists s2, py_pow2 c_pow2 (arg_val s) = Ok s2 /\
                 (2 * s2 =? 0) = true)) /\
  (forall e : error,
     load x c (Arg (arg_kind s) (- arg_val s)) = Raise e <->
     load x c s = Raise e) /\
  (forall s2 : float,
     k = NpFloat ->
     pow2 c_pow2 np_pow2 (arg_kind s) (arg_val s) = Ok s2 ->
     load x c s
     = Ok (P0 * np_exp (- np_pow2 d / (2 * s2))
           / (arg_val s * sqrt (2 * pi)))).
Proof.
  intros load k d. unfold load, gaussian_load_py.
  change (mixed (arg_kind x) (arg_kind c)) with k.
  change (arg_val x - arg_val c) with d.
  clearbody k d. clear load. destruct s as [ks vs]. cbn [arg_kind arg_val].
  split; [|split].
  - intros e. unfold pow2, truediv.
    destruct (FloatFacts.py_pow2_cases c_pow2 d) as [[Hd Ed] | [Hd [rd Ed]]],
      (FloatFacts.py_pow2_cases c_pow2 vs) as [[Hs Es] | [Hs [rs Es]]];
      rewrite Hd, Hs, ?Ed, ?Es; destruct k, ks; cbn [bind mixed];
      try destruct (2 * rs =? 0) eqn:Hz; cbn [bind];
      (split;
       [ intros [= <-]; intuition (eauto || congruence)
       | intros H; decompose [and or ex] H; clear H;
         simplify_eq; congruence ]).
  - intros e. unfold pow2.
    rewrite FloatFacts.py_pow2_opp. unfold truediv.
    destruct (py_pow2 c_pow2 d), (py_pow2 c_pow2 vs), k, ks;
      cbn [bind mixed]; try reflexivity;
      repeat match goal with
             | |- context [if ?b then _ else _] => destruct b; cbn [bind]
             end;
      split; intros [=]; congruence.
  - intros s2 -> Hs. unfold pow2 in *. cbn [bind mixed].
    destruct ks; rewrite Hs || injection Hs as <-; reflexivity.
Qed.

End LoadDomain.

(** C6 as stated fails: with [N = 4] (and the script's other constants)
    the solver raises nothing and returns a curve of four zeros. *)
Lemma C6_counterexample :
  (N (set_N 4 script_params) < 5)%Z /\
  exists xs : vec,
    beam_deflection_central_difference (set_N 4 script_params)
    = Ok (xs, [0; 0; 0; 0]).
Proof.
  split; [simpl; lia|].
  destruct (Solve.central_difference_value (set_N 4 script_params) 4)
    as (y & Hcd & Hy); [done | lia |].
  exists (grid (L (set_N 4 script_params)) 4 <$> seq 0 4).
  rewrite Hcd. do 2 f_equal.
  apply (Boundary.zero_rhs_zero_solution (set_N 4 script_params) 4);
    [right; lia | done].
Qed.

(** C6, amended.  For every grid size [N < 5] the solver never raises the
    singular-matrix error: for [2 <= N <= 4] every row of [A] is an identity
    row and the solver returns the all-zero curve of [N] points; for
    [N = 1] it raises [ZeroDivisionError] (computing [dx = L / (N - 1)]),
    for [N = 0] [IndexError] (at [A[0, 0]]), and for [N < 0] [ValueError]
    (from [np.linspace]). *)
Theorem C6_small_grids (p : params) :
  (N p < 5)%Z ->
  beam_deflection_central_difference p <> Raise LinAlgError /\
  ((2 <= N p)%Z ->
     exists xs : vec,
       beam_deflection_central_difference p
       = Ok (xs, replicate (Z.to_nat (N p)) 0) /\
       length xs = Z.to_nat (N p)) /\
  (N p = 1%Z -> beam_deflection_central_difference p = Raise ZeroDivisionError) /\
  (N p = 0%Z -> beam_deflection_central_difference p = Raise IndexError) /\
  ((N p < 0)%Z -> beam_deflection_central_difference p = Raise ValueError) /\
  ((2 <= N p)%Z ->
     exists (xs : vec) (A : matrix) (b : vec),
       assemble p = Ok (xs, A, b) /\
       length A = Z.to_nat (N p) /\
       forall i, (i < Z.to_nat (N p))%nat ->
         A !! i = Some (unit_row (Z.to_nat (N p)) i)).
Proof.
  intros HN.
  assert (HA : (2 <= N p)%Z ->
     exists (xs : vec) (A : matrix) (b : vec),
       assemble p = Ok (xs, A, b) /\
       length A = Z.to_nat (N p) /\
       forall i, (i < Z.to_nat (N p))%nat ->
         A !! i = Some (unit_row (Z.to_nat (N p)) i)).
  { intros Hge. set (n := Z.to_nat (N p)).
    exists (grid (L p) n <$> seq 0 n), (system_matrix n), (system_rhs p n).
    split; [apply Assembly.assemble_closed_form; unfold n; lia|].
    split; [apply Rows.length_system|].
    intros i Hi. rewrite Solve.system_matrix_lookup by done.
    by rewrite (proj2 (Nonsingular.not_interior_bounds n i))
      by (unfold n in *; lia). }
  assert (H2 : (2 <= N p)%Z ->
     exists xs : vec,
       beam_deflection_central_difference p
       = Ok (xs, replicate (Z.to_nat (N p)) 0) /\
       length xs = Z.to_nat (N p)).
  { intros Hge. set (n := Z.to_nat (N p)).
    destruct (Solve.central_difference_value p n) as (y & Hcd & Hy);
      [unfold n; lia | unfold n; lia |].
    exists (grid (L p) n <$> seq 0 n).
    split; [|by rewrite length_fmap, length_seq].
    rewrite Hcd. do 2 f_equal.
    apply (Boundary.zero_rhs_zero_solution p n); [right; unfold n; lia | done]. }
  assert (H1 : N p = 1%Z ->
               beam_deflection_central_difference p = Raise ZeroDivisionError).
  { intros E. unfold beam_deflection_central_difference, assemble. by rewrite E. }
  assert (H0 : N p = 0%Z ->
               beam_deflection_central_difference p = Raise IndexError).
  { intros E. unfold beam_deflection_central_difference, assemble. by rewrite E. }
  assert (Hneg : (N p < 0)%Z ->
                 beam_deflection_central_difference p = Raise ValueError).
  { intros E. unfold beam_deflection_central_difference, assemble, linspace.
    destruct (Z.ltb_spec (N p) 0); [done | lia]. }
  split; [|done].
  destruct (Z.lt_trichotomy (N p) 0) as [E | [E | E]].
  - by rewrite Hneg.
  - by rewrite H0.
  - destruct (Z.eq_dec (N p) 1%Z) as [E1|E1].
    + by rewrite H1.
    + destruct H2 as (xs & -> & _); [lia | done].
Qed.

(** The script's beam on a grid of three points. *)
Lemma C6_small_grids_witness :
  (N (set_N 3 script_params) < 5)%Z /\
  exists xs : vec,
    beam_deflection_central_difference (set_N 3 script_params)
    = Ok (xs, [0; 0; 0]).
Proof.
  assert (H : (N (set_N 3 script_params) < 5)%Z) by (simpl; lia).
  split; [exact H|].
  destruct (C6_small_grids (set_N 3 script_params) H) as (_ & H2 & _).
  destruct H2 as (xs & Hcd & _); [simpl; lia|].
  exists xs. exact Hcd.
Defined.

(** C7 as stated fails in its last part: on the script's constants the
    peak of the RK4 curve is not near midspan.  The deflection at the last
    sample [x = 10] is strictly larger in magnitude than at every other
    sample. *)
Lemma C7_counterexample :
  exists (xs : vec) (ys : list R) (y_end : R),
    beam_deflection_rk4 script_params = Ok (xs, ys) /\
    xs !! 100%nat = Some 10 /\ ys !! 100%nat = Some y_end /\
    forall j v, (j < 100)%nat -> ys !! j = Some v -> Rabs v < Rabs y_end.
Proof.
  destruct Growth.script_run as (Hrun & Hlen & H0 & Hpos).
  set (ys := trajectory script_params (0, 0, 0, 0) (rk4_grid script_params)) in *.
  destruct (lookup_lt_is_Some_2 ys 100 ltac:(lia)) as [y_end Hend].
  exists (rk4_grid script_params), ys, y_end.
  split; [done|].
  split.
  { rewrite Growth.script_grid_lookup by lia. f_equal.
    rewrite INR_IZR_INZ. change (Z.of_nat 100) with 100%Z. lra. }
  split; [done|].
  intros j v Hj Hv.
  pose proof (Growth.script_trajectory_increasing j 100 v y_end Hj Hv Hend).
  pose proof (Hpos j v Hv).
  rewrite !Rabs_pos_eq by lra. done.
Qed.

(** C7, amended.  On the script's constants the RK4 solver, started from
    [Y = (0, 0, 0, 0)] at [x = 0], returns exactly 101 points
    [x_i = i * 0.1] from 0 to 10 with [y[0] = 0]; the deflection never
    decreases along the span and its peak magnitude is at the last sample
    [x = 10], above the deflection at midspan [x = 5]. *)
Theorem C7_script_run :
  exists (xs : vec) (ys : list R),
    beam_deflection_rk4 script_params = Ok (xs, ys) /\
    length xs = 101%nat /\ length ys = 101%nat /\
    (forall i, (i < 101)%nat -> xs !! i = Some (INR i * 0.1)) /\
    xs !! 0%nat = Some 0 /\ xs !! 50%nat = Some 5 /\ xs !! 100%nat = Some 10 /\
    ys !! 0%nat = Some 0 /\
    (forall i j u v, (i <= j)%nat ->
       ys !! i = Some u -> ys !! j = Some v -> u <= v) /\
    exists y_mid y_end : R,
      ys !! 50%nat = Some y_mid /\ ys !! 100%nat = Some y_end /\
      y_mid < y_end /\
      forall j v, ys !! j = Some v -> Rabs v <= Rabs y_end.
Proof.
  destruct Growth.script_run as (Hrun & Hlen & H0 & Hpos).
  set (ys := trajectory script_params (0, 0, 0, 0) (rk4_grid script_params)) in *.
  exists (rk4_grid script_params), ys.
  split; [done|].
  split; [apply Growth.script_grid_length|].
  split; [done|].
  split; [apply Growth.script_grid_lookup|].
  split; [rewrite Growth.script_grid_lookup by lia; f_equal; simpl; lra|].
  split.
  { rewrite Growth.script_grid_lookup by lia. f_equal.
    rewrite INR_IZR_INZ. change (Z.of_nat 50) with 50%Z. lra. }
  split.
  { rewrite Growth.script_grid_lookup by lia. f_equal.
    rewrite INR_IZR_INZ. change (Z.of_nat 100) with 100%Z. lra. }
  split; [done|].
  split.
  { intros i j u v Hij Hu Hv.
    destruct (decide (i = j)) as [->|Hne].
    - rewrite Hu in Hv. injection Hv as ->. lra.
    - pose proof (Growth.script_trajectory_increasing i j u v ltac:(lia) Hu Hv).
      lra. }
  destruct (lookup_lt_is_Some_2 ys 50 ltac:(lia)) as [y_mid Hmid].
  destruct (lookup_lt_is_Some_2 ys 100 ltac:(lia)) as [y_end Hend].
  exists y_mid, y_end.
  split; [done|]. split; [done|].
  split.
  { apply (Growth.script_trajectory_increasing 50 100); [lia | done | done]. }
  intros j v Hv.
  pose proof (Hpos j v Hv). pose proof (Hpos 100%nat y_end Hend).
  rewrite !Rabs_pos_eq by lra.
  assert (j < 101)%nat.
  { rewrite <- Hlen. by apply lookup_lt_Some in Hv. }
  destruct (decide (j = 100%nat)) as [->|Hne].
  - rewrite Hend in Hv. injection Hv as ->. lra.
  - pose proof (Growth.script_trajectory_increasing j 100 v y_end
                  ltac:(lia) Hv Hend). lra.
Qed.

(** The first load term of the script's RK4 run changes with the
    configured spread. *)
Lemma script_load_term_differs :
  load_term (set_spread 0.1 script_params) (0 + INR 0 * 0.1)
  <> load_term script_params (0 + INR 0 * 0.1).
Proof.
  unfold load_term, gaussian_load.
  cbn [P EI a spread set_spread script_params].
  replace (- (0 + INR 0 * 0.1 - 5) ^ 2 / (2 * 0.1 ^ 2)) with (-1250)
    by (simpl INR; lra).
  replace (- (0 + INR 0 * 0.1 - 5) ^ 2 / (2 * 0.05 ^ 2)) with (-5000)
    by (simpl INR; lra).
  pose proof Growth.sqrt_2PI_pos as Hc. set (c := sqrt (2 * PI)) in *.
  pose proof (exp_pos (-5000)) as He.
  assert (Hexp : exp (-1250) = exp (-5000) * exp 3750).
  { rewrite <- exp_plus. f_equal. lra. }
  pose proof (exp_ineq1 3750 ltac:(lra)) as Hbig.
  assert (Hgt : 2 * exp (-5000) < exp (-1250)) by (rewrite Hexp; nra).
  assert (Hrig : 0 < 2e11 * 8.333e-6) by lra.
  set (rig := 2e11 * 8.333e-6) in *.
  replace 0.1 with (1 / 10) by lra. replace 0.05 with (1 / 20) by lra.
  set (K := 1000 / (1 / 10 * c) / rig).
  assert (HK : 0 < K).
  { unfold K. apply Rdiv_lt_0_compat; [|lra].
    apply Rdiv_lt_0_compat; [lra|]. apply Rmult_lt_0_compat; lra. }
  replace (1000 * exp (-1250) / (1 / 10 * c) / rig)
    with (exp (-1250) * K) by (unfold K; field; lra).
  replace (1000 * exp (-5000) / (1 / 20 * c) / rig)
    with (2 * exp (-5000) * K) by (unfold K; field; lra).
  intros E. apply Rmult_eq_reg_r in E; lra.
Qed.

(** C9.  The two solvers use independent spreads.  The central-difference
    result does not depend on the configured spread constant: its load is
    sampled at the fixed spread 0.1.  The RK4 right-hand side samples the
    load at the configured constant (0.05 in the script), and changing that
    constant can change the RK4 curve. *)
Theorem C9_independent_spreads :
  (forall (p : params) (s : R),
     beam_deflection_central_difference (set_spread s p)
     = beam_deflection_central_difference p) /\
  (forall (p : params) (n i : nat),
     N p = Z.of_nat n -> (2 <= n)%nat -> is_interior n i = true ->
     exists (xs : vec) (A : matrix) (b : vec) (x : R),
       assemble p = Ok (xs, A, b) /\ xs !! i = Some x /\
       b !! i = Some (gaussian_load (P p) x (a p) 0.1 / EI p
                      * (L p / IZR (N p - 1)) ^ 4)) /\
  (forall (p : params) (x y1 y2 y3 y4 : R),
     system_of_odes p x [y1; y2; y3; y4]
     = Ok [y2; y3; y4; gaussian_load (P p) x (a p) (spread p) / EI p]) /\
  spread script_params = 0.05 /\
  beam_deflection_rk4 (set_spread 0.1 script_params)
  <> beam_deflection_rk4 script_params.
Proof.
  split; [done|]. split; [|split; [done|split; [done|]]].
  - intros p n i HN Hn Hint.
    apply Nonsingular.interior_bounds in Hint as Hb.
    exists (grid (L p) n <$> seq 0 n), (system_matrix n), (system_rhs p n),
      (grid (L p) n i).
    split; [by apply Assembly.assemble_closed_form|].
    split; [apply lookup_fmap_seq; lia|].
    unfold system_rhs. rewrite lookup_fmap_seq by lia.
    unfold rhs_entry. by rewrite Hint.
  - rewrite !Marching.beam_deflection_rk4_value by (simpl; lra).
    change (rk4_grid (set_spread 0.1 script_params))
      with (rk4_grid script_params).
    intros E. injection E as E.
    assert (Hgrid : exists xs, rk4_grid script_params
                               = (0 + INR 0 * 0.1) :: (0 + INR 1 * 0.1) :: xs).
    { pose proof Growth.script_grid_length as Hlen.
      pose proof (Growth.rk4_grid_lookup script_params 0
                    ltac:(rewrite Hlen; lia)) as H0.
      pose proof (Growth.rk4_grid_lookup script_params 1
                    ltac:(rewrite Hlen; lia)) as H1.
      destruct (rk4_grid script_params) as [|x0 [|x1 xs]];
        [done | done |].
      injection H0 as ->. injection H1 as ->. by exists xs. }
    destruct Hgrid as [xs Hgrid]. rewrite Hgrid in E.
    apply (f_equal (fun l => l !! 1%nat)) in E.
    rewrite !Marching.trajectory_second in E. injection E as E.
    apply script_load_term_differs. simpl INR. lra.
Qed.

(** C10.  For every [N >= 5] (with [L > 0], [EI > 0], [spread > 0]) the
    matrix assembled by the central-difference solver is non-singular: the
    linear solve does not take its singular-matrix branch and the solver
    returns a deflection curve of exactly [N] points. *)
Theorem C10_matrix_nonsingular (p : params) :
  (5 <= N p)%Z -> 0 < L p -> 0 < EI p -> 0 < spread p ->
  exists (xs : vec) (A : matrix) (b y : vec),
    assemble p = Ok (xs, A, b) /\
    nonsingular A /\
    linalg_solve A b = Ok y /\
    beam_deflection_central_difference p = Ok (xs, y) /\
    length xs = Z.to_nat (N p) /\ length y = Z.to_nat (N p).
Proof.
  intros HN _ _ _. set (n := Z.to_nat (N p)).
  assert (HNn : N p = Z.of_nat n) by (unfold n; lia).
  assert (Hn : (2 <= n)%nat) by lia.
  destruct (Solve.central_difference_value p n HNn Hn) as (y & Hcd & Hy).
  exists (grid (L p) n <$> seq 0 n), (system_matrix n), (system_rhs p n), y.
  split; [by apply Assembly.assemble_closed_form|].
  split; [apply Nonsingular.nonsingular_system|].
  split.
  { apply Nonsingular.linalg_solve_nonsingular;
      [apply Nonsingular.nonsingular_system | done |].
    by rewrite Rows.length_system, Solve.length_system_rhs. }
  split; [done|].
  split; [by rewrite length_fmap, length_seq|].
  destruct Hy as [Hlen _]. by rewrite Hlen, Rows.length_system.
Qed.

(** The script's constants. *)
Lemma C10_matrix_nonsingular_witness :
  exists (xs y : vec),
    beam_deflection_central_difference script_params = Ok (xs, y) /\
    length y = 101%nat.
Proof.
  destruct (C10_matrix_nonsingular script_params)
    as (xs & A & b & y & _ & _ & _ & Hcd & _ & Hy).
  - simpl. lia.
  - simpl. lra.
  - simpl. lra.
  - simpl. lra.
  - exists xs, y. split; [exact Hcd | exact Hy].
Defined.

(** * Further properties of the script *)

(** ** The load function *)

Module LoadShape.

Lemma bump_bounds (x c s : R) :
  s <> 0 -> 0 < exp (- (x - c) ^ 2 / (2 * s ^ 2)) <= 1.
Proof.
  intros Hs. split; [apply exp_pos|].
  assert (Hs2 : 0 < 2 * s ^ 2).
  { assert (0 < s * s) by nra. simpl. lra. }
  assert (Harg : - (x - c) ^ 2 / (2 * s ^ 2) <= 0).
  { pose proof (pow2_ge_0 (x - c)) as Hsq.
    apply (Rmult_le_reg_r (2 * s ^ 2)); [done|].
    unfold Rdiv. rewrite Rmult_assoc, Rinv_l by lra. lra. }
  rewrite <- exp_0.
  destruct Harg as [Hlt | ->]; [left; by apply exp_increasing | lra].
Qed.

Lemma bump_decreasing (x x' c s : R) :
  s <> 0 -> (x - c) ^ 2 <= (x' - c) ^ 2 ->
  exp (- (x' - c) ^ 2 / (2 * s ^ 2)) <= exp (- (x - c) ^ 2 / (2 * s ^ 2)).
Proof.
  intros Hs Hsq.
  assert (Hs2 : 0 < 2 * s ^ 2).
  { assert (0 < s * s) by nra. simpl. lra. }
  assert (Harg : - (x' - c) ^ 2 / (2 * s ^ 2) <= - (x - c) ^ 2 / (2 * s ^ 2)).
  { apply (Rmult_le_reg_r (2 * s ^ 2)); [done|].
    unfold Rdiv. rewrite !Rmult_assoc, Rinv_l by lra. lra. }
  destruct Harg as [Hlt | ->]; [left; by apply exp_increasing | lra].
Qed.

Lemma scale_by_load (P0 s e e' : R) :
  0 <= P0 -> 0 < s -> e <= e' ->
  P0 * e / (s * sqrt (2 * PI)) <= P0 * e' / (s * sqrt (2 * PI)).
Proof.
  intros HP Hs He. pose proof Growth.sqrt_2PI_pos as Hc.
  assert (HD : 0 < s * sqrt (2 * PI)) by (apply Rmult_lt_0_compat; lra).
  unfold Rdiv. apply Rmult_le_compat_r.
  - left. by apply Rinv_0_lt_compat.
  - by apply Rmult_le_compat_l.
Qed.

End LoadShape.

(** X1.  For a non-negative load [P] and a positive spread the load
    intensity is non-negative everywhere and largest at the load position
    [a], where it equals [P / (spread * sqrt(2 pi))]. *)
Theorem X1_load_peak (P0 x c s : R) :
  0 <= P0 -> 0 < s ->
  0 <= gaussian_load P0 x c s <= gaussian_load P0 c c s /\
  gaussian_load P0 c c s = P0 / (s * sqrt (2 * PI)).
Proof.
  intros HP Hs. pose proof Growth.sqrt_2PI_pos as Hc.
  assert (Hpeak : gaussian_load P0 c c s = P0 / (s * sqrt (2 * PI))).
  { unfold gaussian_load.
    replace (- (c - c) ^ 2 / (2 * s ^ 2)) with 0 by (field; lra).
    rewrite exp_0. f_equal. lra. }
  split; [|done]. rewrite Hpeak.
  destruct (LoadShape.bump_bounds x c s ltac:(lra)) as [Hlo Hhi].
  unfold gaussian_load. split.
  - replace 0 with (P0 * 0 / (s * sqrt (2 * PI))) by (field; lra).
    apply LoadShape.scale_by_load; [done | done | lra].
  - replace (P0 / (s * sqrt (2 * PI))) with (P0 * 1 / (s * sqrt (2 * PI)))
      by (field; lra).
    by apply LoadShape.scale_by_load.
Qed.

(** The script's load at the quarter point. *)
Lemma X1_load_peak_witness :
  0 <= gaussian_load 1000 2.5 5 0.05 <= gaussian_load 1000 5 5 0.05 /\
  gaussian_load 1000 5 5 0.05 = 1000 / (0.05 * sqrt (2 * PI)).
Proof. apply (X1_load_peak 1000 2.5 5 0.05); lra. Defined.

(** X2.  For a non-negative load and a positive spread the load intensity
    does not increase with the distance from the load position; for any
    load and spread it is symmetric about the load position. *)
Theorem X2_load_symmetric_decreasing (P0 x x' c s : R) :
  0 <= P0 -> 0 < s -> Rabs (x - c) <= Rabs (x' - c) ->
  gaussian_load P0 x' c s <= gaussian_load P0 x c s /\
  forall (Q t r : R), gaussian_load Q (c + t) c r = gaussian_load Q (c - t) c r.
Proof.
  intros HP Hs Hd. split.
  - unfold gaussian_load. apply LoadShape.scale_by_load; [done | done |].
    apply LoadShape.bump_decreasing; [lra|].
    apply Rsqr_le_abs_1 in Hd. unfold Rsqr in Hd. simpl. lra.
  - intros Q t r. unfold gaussian_load.
    replace ((c + t - c) ^ 2) with ((c - t - c) ^ 2) by ring. done.
Qed.

(** The script's load one span-tenth and two span-tenths from the load. *)
Lemma X2_load_symmetric_decreasing_witness :
  gaussian_load 1000 7 5 0.05 <= gaussian_load 1000 4 5 0.05.
Proof.
  apply (X2_load_symmetric_decreasing 1000 4 7 5 0.05); [lra | lra |].
  unfold Rabs. destruct (Rcase_abs (4 - 5)), (Rcase_abs (7 - 5)); lra.
Defined.

(** ** One RK4 step *)

Module Step.

(** The step on stage values of the shape of [Y]. *)
Lemma rk4_step_same_shape
    (f : R -> vec -> result vec) (x h : R) (Y k1 k2 k3 k4 : vec) :
  f x Y = Ok k1 ->
  f (x + h / 2) (vplus Y (vscale (h / 2) k1)) = Ok k2 ->
  f (x + h / 2) (vplus Y (vscale (h / 2) k2)) = Ok k3 ->
  f (x + h) (vplus Y (vscale h k3)) = Ok k4 ->
  length k1 = length Y -> length k2 = length Y ->
  length k3 = length Y -> length k4 = length Y ->
  rk4_step f x Y h = Ok (rk4_update Y k1 k2 k3 k4 h).
Proof.
  intros F1 F2 F3 F4 L1 L2 L3 L4. unfold rk4_step, rk4_update.
  assert (Hadd : forall u v : vec,
            length u = length Y -> length v = length Y ->
            add u v = Ok (vplus u v)).
  { intros u v Hu Hv. apply Marching.add_same_shape. congruence. }
  assert (Hlen : forall u v : vec,
            length u = length Y -> length v = length Y ->
            length (vplus u v) = length Y).
  { intros u v Hu Hv. rewrite Marching.length_vplus; congruence. }
  assert (Hscale : forall (c : R) (v : vec),
            length v = length Y -> length (vscale c v) = length Y).
  { intros c v Hv. by rewrite Marching.length_vscale. }
  rewrite F1. cbn [bind]. rewrite Marching.half_step, Hadd by auto.
  cbn [bind]. rewrite F2. cbn [bind]. rewrite Marching.half_step, Hadd by auto.
  cbn [bind]. rewrite F3. cbn [bind].
  change (smul h k3) with (vscale h k3). rewrite Hadd by auto.
  cbn [bind]. rewrite F4. cbn [bind].
  change (smul 2 k2) with (vscale 2 k2). change (smul 2 k3) with (vscale 2 k3).
  change (smul (h / 6)) with (vscale (h / 6)).
  rewrite (Hadd k1) by auto. cbn [bind].
  rewrite (Hadd (vplus k1 _)) by auto. cbn [bind].
  rewrite (Hadd (vplus (vplus k1 _) _)) by auto. cbn [bind].
  by rewrite Hadd by auto 6.
Qed.

(** Two equal middle stages weigh four times. *)
Lemma simpson_weights (u v w : vec) :
  vplus (vplus (vplus u (vscale 2 v)) (vscale 2 v)) w
  = vplus (vplus u (vscale 4 v)) w.
Proof.
  apply list_eq; intros i. unfold vplus, vscale.
  rewrite !lookup_zip_with, !list_lookup_fmap.
  destruct (u !! i), (v !! i), (w !! i); simpl; try done.
  f_equal. lra.
Qed.

Lemma system_of_odes_shape (p : params) (x : R) (Y : vec) :
  length Y <> 4%nat -> system_of_odes p x Y = Raise ValueError.
Proof. by destruct Y as [|y1 [|y2 [|y3 [|y4 [|y5 Y]]]]]. Qed.

End Step.

(** X3.  For a right-hand side that does not depend on the state, one RK4
    step is Simpson's rule:
    [Y + (h/6)(g(x) + 4 g(x + h/2) + g(x + h))]. *)
Theorem X3_rk4_step_simpson (g : R -> vec) (x h : R) (Y : vec) :
  length (g x) = length Y -> length (g (x + h / 2)) = length Y ->
  length (g (x + h)) = length Y ->
  rk4_step (fun t _ => Ok (g t)) x Y h
  = Ok (vplus Y (vscale (h / 6)
                   (vplus (vplus (g x) (vscale 4 (g (x + h / 2)))) (g (x + h))))).
Proof.
  intros L0 Lm L1.
  rewrite (Step.rk4_step_same_shape _ x h Y (g x) (g (x + h / 2))
             (g (x + h / 2)) (g (x + h))) by done.
  unfold rk4_update. by rewrite Step.simpson_weights.
Qed.

(** Integrating [t] and [t^2] over one unit step. *)
Lemma X3_rk4_step_simpson_witness :
  rk4_step (fun t _ => Ok [t; t ^ 2]) 0 [0; 0] 1
  = Ok (vplus [0; 0] (vscale (1 / 6)
          (vplus (vplus [0; 0 ^ 2] (vscale 4 [0 + 1 / 2; (0 + 1 / 2) ^ 2]))
                 [0 + 1; (0 + 1) ^ 2]))).
Proof.
  apply (X3_rk4_step_simpson (fun t => [t; t ^ 2]) 0 1 [0; 0]); reflexivity.
Defined.

(** X4.  One RK4 step of the beam system advances a four-component state
    by its Taylor polynomial: the deflection by
    [h y' + h^2 y''/2 + h^3 y'''/6 + h^4 q(x)/24] with [q = w/EI], the
    third derivative by Simpson's rule on [q]; a state of any other length
    raises [ValueError]. *)
Theorem X4_beam_step (p : params) (x h : R) :
  (forall y1 y2 y3 y4 : R,
     let q0 := gaussian_load (P p) x (a p) (spread p) / EI p in
     let qm := gaussian_load (P p) (x + h / 2) (a p) (spread p) / EI p in
     let q1 := gaussian_load (P p) (x + h) (a p) (spread p) / EI p in
     rk4_step (system_of_odes p) x [y1; y2; y3; y4] h
     = Ok [y1 + h * y2 + h ^ 2 * y3 / 2 + h ^ 3 * y4 / 6 + h ^ 4 * q0 / 24;
           y2 + h * y3 + h ^ 2 * y4 / 2 + h ^ 3 * (q0 + qm) / 12;
           y3 + h * y4 + h ^ 2 * (q0 + 2 * qm) / 6;
           y4 + h * (q0 + 4 * qm + q1) / 6]) /\
  (forall Y : vec, length Y <> 4%nat ->
     rk4_step (system_of_odes p) x Y h = Raise ValueError).
Proof.
  split.
  - intros y1 y2 y3 y4 q0 qm q1.
    change [y1; y2; y3; y4] with (to_vec (y1, y2, y3, y4)).
    rewrite (Marching.rk4_step_ode p x h (y1, y2, y3, y4)).
    unfold to_vec, ode_step, load_term. fold q0 qm q1.
    do 2 f_equal; [field | f_equal; [field | f_equal; [field | f_equal; field]]].
  - intros Y HY. unfold rk4_step. by rewrite Step.system_of_odes_shape.
Qed.

(** ** The RK4 solver as a whole *)

Module Run.

Lemma load_term_scale (c : R) (p : params) (x : R) :
  load_term (set_load (c * P p) p) x = c * load_term p x.
Proof.
  unfold load_term, gaussian_load. cbn [P EI a spread set_load].
  unfold Rdiv. ring.
Qed.

Lemma next_scale (c : R) (p : params) (x : R) (Y : state) :
  next (set_load (c * P p) p) x (scale_state c Y) = scale_state c (next p x Y).
Proof.
  unfold next. rewrite !load_term_scale. cbn [dx set_load].
  destruct Y as [[[y1 y2] y3] y4]. unfold ode_step, scale_state.
  repeat f_equal; field.
Qed.

Lemma trajectory_scale (c : R) (p : params) (Y : state) (xs : list R) :
  trajectory (set_load (c * P p) p) (scale_state c Y) xs
  = Rmult c <$> trajectory p Y xs.
Proof.
  revert Y; induction xs as [|x xs IH]; intros Y; [done|].
  cbn [trajectory fmap list_fmap]. rewrite next_scale, IH.
  f_equal. by destruct Y as [[[y1 y2] y3] y4].
Qed.

End Run.

(** X7.  The RK4 curve is linear in the load: scaling [P] by a factor
    leaves the positions unchanged and scales every deflection by that
    factor. *)
Theorem X7_rk4_linear_in_load (p : params) (c : R) :
  dx p <> 0 ->
  exists (xs : vec) (ys : list R),
    beam_deflection_rk4 p = Ok (xs, ys) /\
    beam_deflection_rk4 (set_load (c * P p) p) = Ok (xs, Rmult c <$> ys).
Proof.
  intros Hdx.
  exists (rk4_grid p), (trajectory p (0, 0, 0, 0) (rk4_grid p)).
  split; [by apply Marching.beam_deflection_rk4_value|].
  rewrite Marching.beam_deflection_rk4_value by done.
  change (rk4_grid (set_load (c * P p) p)) with (rk4_grid p).
  rewrite <- Run.trajectory_scale. do 3 f_equal.
  unfold scale_state. repeat f_equal; ring.
Qed.

(** Doubling the script's load. *)
Lemma X7_rk4_linear_in_load_witness :
  exists (xs : vec) (ys : list R),
    beam_deflection_rk4 script_params = Ok (xs, ys) /\
    beam_deflection_rk4 (set_load (2 * P script_params) script_params)
    = Ok (xs, Rmult 2 <$> ys).
Proof. apply (X7_rk4_linear_in_load script_params 2). simpl. lra. Defined.

(** X8.  Under a positive load (with [EI], [spread], [dx], [L] positive)
    the RK4 curve has at least two points, its deflections are
    non-negative and they increase strictly from sample to sample. *)
Theorem X8_rk4_increasing (p : params) :
  0 < P p -> 0 < EI p -> 0 < spread p -> 0 < dx p -> 0 < L p ->
  exists (xs : vec) (ys : list R),
    beam_deflection_rk4 p = Ok (xs, ys) /\
    (2 <= length ys)%nat /\
    (forall j v, ys !! j = Some v -> 0 <= v) /\
    (forall i j u v, (i < j)%nat ->
       ys !! i = Some u -> ys !! j = Some v -> u < v).
Proof.
  intros HP HE Hs Hdx HL.
  set (ys := trajectory p (0, 0, 0, 0) (rk4_grid p)).
  assert (Hinc : forall i j u v, (i < j)%nat ->
            ys !! i = Some u -> ys !! j = Some v -> u < v).
  { intros i j u v.
    apply Growth.trajectory_increasing;
      first [done | apply Growth.nonneg_rest]. }
  assert (Hlen : (2 <= length ys)%nat).
  { unfold ys. rewrite Marching.length_trajectory.
    by apply Growth.rk4_grid_two. }
  exists (rk4_grid p), ys.
  split; [apply Marching.beam_deflection_rk4_value; lra|].
  split; [done|]. split; [|done].
  intros j v Hv.
  apply (Growth.trajectory_lower p HP Hs HE Hdx _ _ _ _ Growth.nonneg_rest Hv).
Qed.

(** The script's constants. *)
Lemma X8_rk4_increasing_witness :
  exists (xs : vec) (ys : list R),
    beam_deflection_rk4 script_params = Ok (xs, ys) /\
    (2 <= length ys)%nat /\
    (forall j v, ys !! j = Some v -> 0 <= v) /\
    (forall i j u v, (i < j)%nat ->
       ys !! i = Some u -> ys !! j = Some v -> u < v).
Proof. apply (X8_rk4_increasing script_params); simpl; lra. Defined.

(** ** The central-difference solution *)

Module Discrete.
Import Rows Nonsingular.

Lemma rhs_entry_interior (p : params) (n i : nat) :
  N p = Z.of_nat n -> (2 <= i)%nat -> (i + 2 < n)%nat ->
  rhs_entry p n i
  = gaussian_load (P p) (INR i * (L p / IZR (N p - 1))) (a p) 0.1 / EI p
    * (L p / IZR (N p - 1)) ^ 4.
Proof.
  intros HN H2 Hn. unfold rhs_entry.
  rewrite (proj2 (interior_bounds n i)) by lia.
  rewrite grid_value by lia. by rewrite HN.
Qed.

(** The linear system and the discrete beam problem have the same
    solutions. *)
Lemma solves_discrete_beam (p : params) (n : nat) (y : vec) :
  N p = Z.of_nat n -> (2 <= n)%nat ->
  solves (system_matrix n) (system_rhs p n) y <->
  discrete_beam p n (L p / IZR (N p - 1)) y.
Proof.
  intros HN Hn. rewrite solves_rows by apply Solve.length_system_rhs.
  unfold discrete_beam. split.
  - intros [Hlen Hrow]. split; [done|]. split.
    + intros i H2 Hi. specialize (Hrow i ltac:(lia)).
      unfold row_product, system_rhs in Hrow.
      rewrite (proj2 (interior_bounds n i)) in Hrow by lia.
      rewrite lookup_total_fmap_seq in Hrow by lia.
      by rewrite rhs_entry_interior in Hrow.
    + intros i Hi Hb. specialize (Hrow i Hi).
      unfold row_product, system_rhs, rhs_entry in Hrow.
      rewrite lookup_total_fmap_seq in Hrow by lia.
      by rewrite (proj2 (not_interior_bounds n i)) in Hrow by lia.
  - intros (Hlen & Hint & Hbd). split; [done|]. intros i Hi.
    unfold row_product, system_rhs. rewrite lookup_total_fmap_seq by lia.
    destruct (is_interior n i) eqn:E.
    + apply interior_bounds in E as [H2 H3].
      rewrite rhs_entry_interior by done. by apply Hint.
    + unfold rhs_entry. rewrite E.
      apply not_interior_bounds in E. by apply Hbd.
Qed.

Lemma scaled_solves (c : R) (p : params) (n : nat) (y : vec) :
  solves (system_matrix n) (system_rhs p n) y ->
  solves (system_matrix n) (system_rhs (set_load (c * P p) p) n) (Rmult c <$> y).
Proof.
  intros [Hlen Hrow]%solves_rows; [|apply Solve.length_system_rhs].
  apply solves_rows; [apply Solve.length_system_rhs|].
  split; [by rewrite length_fmap|]. intros i Hi.
  specialize (Hrow i Hi). unfold row_product, system_rhs in *.
  rewrite lookup_total_fmap_seq in * by done.
  unfold rhs_entry in *. cbn [P EI a L N set_load].
  destruct (is_interior n i) eqn:E.
  - apply interior_bounds in E as [H2 H3].
    rewrite !(list_lookup_total_fmap (Rmult c) y) by lia.
    replace (gaussian_load (c * P p) (grid (L p) n i) (a p) 0.1)
      with (c * gaussian_load (P p) (grid (L p) n i) (a p) 0.1)
      by (unfold gaussian_load, Rdiv; ring).
    replace (c * gaussian_load (P p) (grid (L p) n i) (a p) 0.1 / EI p
             * (L p / IZR (N p - 1)) ^ 4)
      with (c * (gaussian_load (P p) (grid (L p) n i) (a p) 0.1 / EI p
                 * (L p / IZR (N p - 1)) ^ 4))
      by (unfold Rdiv; ring).
    rewrite <- Hrow. ring.
  - rewrite (list_lookup_total_fmap (Rmult c) y) by lia. rewrite Hrow. ring.
Qed.

Lemma reverse_lookup_total (y : vec) (i : nat) :
  (i < length y)%nat -> reverse y !!! i = y !!! (length y - 1 - i)%nat.
Proof.
  intros Hi. rewrite !list_lookup_total_alt, reverse_lookup by done.
  do 2 f_equal. lia.
Qed.

Lemma grid_mirror (len : R) (n i : nat) :
  (2 <= n)%nat -> (i < n)%nat -> grid len n (n - 1 - i) = len - grid len n i.
Proof.
  intros Hn Hi. rewrite !grid_value by lia.
  assert (HD : INR (n - 1) = IZR (Z.of_nat n - 1)).
  { rewrite INR_IZR_INZ. f_equal. lia. }
  assert (Hpos : 0 < INR (n - 1)) by (apply lt_0_INR; lia).
  rewrite <- HD, minus_INR by lia. field. lra.
Qed.

Lemma interior_mirror (n i : nat) :
  (i < n)%nat -> is_interior n (n - 1 - i) = is_interior n i.
Proof.
  intros Hi. unfold is_interior.
  destruct (Nat.leb_spec 2 i), (Nat.ltb_spec (i + 2) n),
    (Nat.leb_spec 2 (n - 1 - i)), (Nat.ltb_spec (n - 1 - i + 2) n);
    cbn [andb]; first [done | lia].
Qed.

Lemma rhs_mirror (p : params) (n i : nat) :
  a p = L p / 2 -> (2 <= n)%nat -> (i < n)%nat ->
  rhs_entry p n (n - 1 - i) = rhs_entry p n i.
Proof.
  intros Ha Hn Hi. unfold rhs_entry.
  rewrite interior_mirror, grid_mirror by lia.
  destruct (is_interior n i); [|done].
  do 2 f_equal. unfold gaussian_load. rewrite Ha.
  replace ((L p - grid (L p) n i - L p / 2) ^ 2)
    with ((grid (L p) n i - L p / 2) ^ 2) by field.
  done.
Qed.

Lemma reversed_solves (p : params) (n : nat) (y : vec) :
  a p = L p / 2 -> (2 <= n)%nat ->
  solves (system_matrix n) (system_rhs p n) y ->
  solves (system_matrix n) (system_rhs p n) (reverse y).
Proof.
  intros Ha Hn [Hlen Hrow]%solves_rows; [|apply Solve.length_system_rhs].
  apply solves_rows; [apply Solve.length_system_rhs|].
  split; [by rewrite length_reverse|]. intros i Hi.
  specialize (Hrow (n - 1 - i)%nat ltac:(lia)).
  unfold system_rhs in *. rewrite lookup_total_fmap_seq in * by lia.
  rewrite rhs_mirror in Hrow by done. rewrite <- Hrow.
  unfold row_product. rewrite interior_mirror by done.
  destruct (is_interior n i) eqn:E.
  - apply interior_bounds in E as [H2 H3].
    rewrite !reverse_lookup_total by lia. rewrite Hlen.
    replace (n - 1 - (i - 2))%nat with (n - 1 - i + 2)%nat by lia.
    replace (n - 1 - (i - 1))%nat with (n - 1 - i + 1)%nat by lia.
    replace (n - 1 - (i + 1))%nat with (n - 1 - i - 1)%nat by lia.
    replace (n - 1 - (i + 2))%nat with (n - 1 - i - 2)%nat by lia.
    lra.
  - rewrite reverse_lookup_total by lia. by rewrite Hlen.
Qed.

(** The solver's outcome below two grid points. *)
Lemma tiny_grid_raises (p : params) :
  (N p < 2)%Z ->
  exists e : error,
    CentralDifference.beam_deflection_central_difference p = Raise e /\
    e <> LinAlgError.
Proof.
  intros HN.
  unfold CentralDifference.beam_deflection_central_difference,
    CentralDifference.assemble.
  destruct (Z.lt_trichotomy (N p) 0) as [E | [E | E]].
  - exists ValueError. unfold linspace.
    destruct (Z.ltb_spec (N p) 0); [done | lia].
  - exists IndexError. by rewrite E.
  - assert (N p = 1%Z) as -> by lia. by exists ZeroDivisionError.
Qed.

End Discrete.

(** X9.  In exact arithmetic, with [np.linalg.solve] taken by its
    contract: for every grid of [N >= 2] points the central-difference
    solver returns the one vector that solves the discrete beam problem:
    its fourth difference equals [w(x_i) dx^4 / EI] (load at spread 0.1,
    [x_i = i dx], [dx = L / (N - 1)]) at every interior index and it is
    zero at indices [0, 1, N - 2, N - 1]; no other vector of [N] entries
    does.  (In float64 the returned entries satisfy these equations up to
    rounding only; entry 1 is then a rounding residue, not an exact
    zero.) *)
Theorem X9_discrete_beam_solution (p : params) :
  (2 <= N p)%Z ->
  exists (xs ys : vec),
    beam_deflection_central_difference p = Ok (xs, ys) /\
    discrete_beam p (Z.to_nat (N p)) (L p / IZR (N p - 1)) ys /\
    forall y' : vec,
      discrete_beam p (Z.to_nat (N p)) (L p / IZR (N p - 1)) y' -> y' = ys.
Proof.
  intros HN. set (n := Z.to_nat (N p)).
  assert (HNn : N p = Z.of_nat n) by (unfold n; lia).
  assert (Hn : (2 <= n)%nat) by (unfold n; lia).
  destruct (Solve.central_difference_value p n HNn Hn) as (y & Hcd & Hy).
  exists (grid (L p) n <$> seq 0 n), y.
  split; [done|]. split.
  - by apply Discrete.solves_discrete_beam.
  - intros y' Hy'. apply Discrete.solves_discrete_beam in Hy'; [|done|done].
    apply (Nonsingular.system_solution_unique n (system_rhs p n));
      [apply Solve.length_system_rhs | done | done].
Qed.

(** The script's grid. *)
Lemma X9_discrete_beam_solution_witness :
  exists (xs ys : vec),
    beam_deflection_central_difference script_params = Ok (xs, ys) /\
    discrete_beam script_params 101 (10 / IZR (101 - 1)) ys.
Proof.
  destruct (X9_discrete_beam_solution script_params) as (xs & ys & Hcd & Hy & _).
  - simpl. lia.
  - exists xs, ys. split; [exact Hcd | exact Hy].
Defined.

(** X15.  For every grid of [N >= 5] points, every interior row
    [2 <= i < N - 2] of the assembled matrix has exactly five non-zero
    entries, and they sum to zero (the stencil 1, -4, 6, -4, 1); every
    other row has exactly one non-zero entry and sums to one. *)
Theorem X15_row_measures (p : params) :
  (5 <= N p)%Z ->
  exists (xs : vec) (A : matrix) (b : vec),
    assemble p = Ok (xs, A, b) /\
    length A = Z.to_nat (N p) /\
    forall i, (i < Z.to_nat (N p))%nat ->
      exists row : vec,
        A !! i = Some row /\
        length row = Z.to_nat (N p) /\
        if is_interior (Z.to_nat (N p)) i
        then nonzero_count row = 5%nat /\ row_sum row = 0
        else nonzero_count row = 1%nat /\ row_sum row = 1.
Proof.
  intros HN. set (n := Z.to_nat (N p)).
  exists (grid (L p) n <$> seq 0 n), (system_matrix n), (system_rhs p n).
  split; [apply Assembly.assemble_closed_form; unfold n; lia|].
  split; [apply Rows.length_system|].
  intros i Hi. rewrite Solve.system_matrix_lookup by done.
  destruct (is_interior n i) eqn:Hint.
  - apply Nonsingular.interior_bounds in Hint as [H2 Hn].
    exists (stencil_row n i).
    split; [done|].
    split; [unfold stencil_row; by rewrite !length_insert, length_replicate|].
    split; [by apply RowMeasure.stencil_row_support
           | by apply RowMeasure.stencil_row_sum].
  - exists (unit_row n i).
    split; [done|].
    split; [unfold unit_row; by rewrite length_insert, length_replicate|].
    split; [by apply RowMeasure.unit_row_support
           | by apply RowMeasure.unit_row_sum].
Qed.

(** The script's grid of 101 points: row 50 is a stencil row, row 1 an
    identity row. *)
Lemma X15_row_measures_witness :
  exists (A : matrix) (r1 r50 : vec),
    (exists xs b, assemble script_params = Ok (xs, A, b)) /\
    A !! 1%nat = Some r1 /\ nonzero_count r1 = 1%nat /\ row_sum r1 = 1 /\
    A !! 50%nat = Some r50 /\ nonzero_count r50 = 5%nat /\ row_sum r50 = 0.
Proof.
  destruct (X15_row_measures script_params) as (xs & A & b & HA & _ & Hrows);
    [simpl; lia|].
  destruct (Hrows 1%nat) as (r1 & H1 & _ & Hm1); [simpl; lia|].
  destruct (Hrows 50%nat) as (r50 & H50 & _ & Hm50); [simpl; lia|].
  exists A, r1, r50.
  split; [by exists xs, b|].
  split; [exact H1|]. split; [exact (proj1 Hm1)|]. split; [exact (proj2 Hm1)|].
  split; [exact H50|]. split; [exact (proj1 Hm50) | exact (proj2 Hm50)].
Defined.

(** X10.  The central-difference curve is linear in the load: scaling [P]
    by a factor leaves the grid unchanged and scales every deflection by
    that factor. *)
Theorem X10_central_difference_linear_in_load (p : params) (c : R) :
  (2 <= N p)%Z ->
  exists (xs ys : vec),
    beam_deflection_central_difference p = Ok (xs, ys) /\
    beam_deflection_central_difference (set_load (c * P p) p)
    = Ok (xs, Rmult c <$> ys).
Proof.
  intros HN. set (n := Z.to_nat (N p)).
  assert (HNn : N p = Z.of_nat n) by (unfold n; lia).
  assert (Hn : (2 <= n)%nat) by (unfold n; lia).
  destruct (Solve.central_difference_value p n HNn Hn) as (y & Hcd & Hy).
  destruct (Solve.central_difference_value (set_load (c * P p) p) n HNn Hn)
    as (y' & Hcd' & Hy').
  exists (grid (L p) n <$> seq 0 n), y.
  split; [done|]. rewrite Hcd'. cbn [L set_load]. do 2 f_equal.
  apply (Nonsingular.system_solution_unique n
           (system_rhs (set_load (c * P p) p) n));
    [apply Solve.length_system_rhs | by apply Discrete.scaled_solves | done].
Qed.

(** Doubling the script's load. *)
Lemma X10_central_difference_linear_in_load_witness :
  exists (xs ys : vec),
    beam_deflection_central_difference script_params = Ok (xs, ys) /\
    beam_deflection_central_difference
      (set_load (2 * P script_params) script_params)
    = Ok (xs, Rmult 2 <$> ys).
Proof.
  apply (X10_central_difference_linear_in_load script_params 2). simpl. lia.
Defined.

(** X11.  With the load at midspan ([a = L / 2]) the central-difference
    curve is mirror-symmetric: entry [i] equals entry [N - 1 - i]. *)
Theorem X11_midspan_load_symmetric (p : params) :
  a p = L p / 2 -> (2 <= N p)%Z ->
  exists (xs ys : vec),
    beam_deflection_central_difference p = Ok (xs, ys) /\
    length ys = Z.to_nat (N p) /\
    forall i, (i < Z.to_nat (N p))%nat ->
      ys !! i = ys !! (Z.to_nat (N p) - 1 - i)%nat.
Proof.
  intros Ha HN. set (n := Z.to_nat (N p)).
  assert (HNn : N p = Z.of_nat n) by (unfold n; lia).
  assert (Hn : (2 <= n)%nat) by (unfold n; lia).
  destruct (Solve.central_difference_value p n HNn Hn) as (y & Hcd & Hy).
  assert (Hlen : length y = n).
  { destruct Hy as [Hlen _]. by rewrite Hlen, Rows.length_system. }
  exists (grid (L p) n <$> seq 0 n), y.
  split; [done|]. split; [done|]. intros i Hi.
  assert (Hrev : reverse y = y).
  { apply (Nonsingular.system_solution_unique n (system_rhs p n));
      [apply Solve.length_system_rhs | done |].
    by apply Discrete.reversed_solves. }
  rewrite <- Hrev at 1. rewrite reverse_lookup by lia.
  f_equal. lia.
Qed.

(** The script's constants: the load sits at midspan. *)
Lemma X11_midspan_load_symmetric_witness :
  exists (xs ys : vec),
    beam_deflection_central_difference script_params = Ok (xs, ys) /\
    length ys = 101%nat /\
    forall i, (i < 101)%nat -> ys !! i = ys !! (101 - 1 - i)%nat.
Proof.
  apply (X11_midspan_load_symmetric script_params); simpl; [lra | lia].
Defined.

(** X12.  The central-difference solver returns a curve exactly when
    [N >= 2]; for smaller [N] it raises, and for no [N] at all does it
    raise the singular-matrix error. *)
Theorem X12_returns_iff_two_points (p : params) :
  ((exists curve, beam_deflection_central_difference p = Ok curve)
   <-> (2 <= N p)%Z) /\
  beam_deflection_central_difference p <> Raise LinAlgError.
Proof.
  destruct (Z_lt_le_dec (N p) 2) as [Hlt | Hge].
  - destruct (Discrete.tiny_grid_raises p Hlt) as (e & He & Hne).
    rewrite He. split.
    + split; [by intros [c Hc] | lia].
    + intros E. by injection E.
  - destruct (Solve.central_difference_value p (Z.to_nat (N p)))
      as (y & Hcd & _); [lia | lia |].
    rewrite Hcd. split; [|done].
    split; [done | by eexists].
Qed.

(** ** The entry point *)

Module Entry.
Import Script.

Lemma plot_deflection_ok (x y : vec) (label : string) (calls : list event) :
  length x = length y ->
  plot_deflection x y label calls = (calls ++ [Plot x y label], Ok tt).
Proof.
  intros E. unfold plot_deflection, plt_plot. by rewrite E, Nat.eqb_refl.
Qed.

(** Both solvers return positions and deflections of one length. *)
Lemma rk4_curve (p : params) :
  dx p <> 0 ->
  exists (xs : vec) (ys : list R),
    RK4.beam_deflection_rk4 p = Ok (xs, ys) /\ length xs = length ys.
Proof.
  intros Hdx.
  exists (rk4_grid p), (trajectory p (0, 0, 0, 0) (rk4_grid p)).
  split; [by apply Marching.beam_deflection_rk4_value|].
  by rewrite Marching.length_trajectory.
Qed.

Lemma central_difference_curve (p : params) :
  (2 <= N p)%Z ->
  exists (xs ys : vec),
    CentralDifference.beam_deflection_central_difference p = Ok (xs, ys) /\
    length xs = length ys.
Proof.
  intros HN. set (n := Z.to_nat (N p)).
  destruct (Solve.central_difference_value p n) as (y & Hcd & Hlen & _);
    [unfold n; lia | unfold n; lia |].
  exists (grid (L p) n <$> seq 0 n), y. split; [done|].
  by rewrite Hlen, Rows.length_system, length_fmap, length_seq.
Qed.

End Entry.

(** X13.  For a non-zero RK4 step and [N >= 2], [main] raises nothing and
    makes exactly these plotting calls, in order: the RK4 curve and the
    central-difference curve are drawn once before the figure of size
    10 by 4 is opened and once more inside it, then come the axis labels,
    the title, the grid, the legend, the layout and the final show. *)
Theorem X13_main_plots (p : params) (calls : list Script.event) :
  dx p <> 0 -> (2 <= N p)%Z ->
  exists (x_rk4 : vec) (y_rk4 : list R) (x_cdf y_cdf : vec),
    beam_deflection_rk4 p = Ok (x_rk4, y_rk4) /\
    beam_deflection_central_difference p = Ok (x_cdf, y_cdf) /\
    Script.main p calls =
    (calls ++ [Script.Plot x_rk4 y_rk4 "Runge-Kutta Method";
               Script.Plot x_cdf y_cdf "Central Difference Method";
               Script.Figure 10 4;
               Script.Plot x_rk4 y_rk4 "Runge-Kutta Method";
               Script.Plot x_cdf y_cdf "Central Difference Method";
               Script.XLabel "Beam Length (m)";
               Script.YLabel "Deflection (m)";
               Script.Title "Beam Deflection Under Point Load";
               Script.Grid true; Script.Legend; Script.TightLayout;
               Script.Show],
     Ok tt).
Proof.
  intros Hdx HN.
  destruct (Entry.rk4_curve p Hdx) as (xr & yr & Hrk & Lr).
  destruct (Entry.central_difference_curve p HN) as (xc & yc & Hcd & Lc).
  exists xr, yr, xc, yc. split; [done|]. split; [done|].
  unfold Script.main, Script.io_bind, Script.run, Script.call.
  rewrite Hrk, Hcd.
  rewrite !Entry.plot_deflection_ok by done.
  by rewrite <- !app_assoc.
Qed.

(** The script's constants, started with no call made. *)
Lemma X13_main_plots_witness :
  exists (x_rk4 : vec) (y_rk4 : list R) (x_cdf y_cdf : vec) (calls : list Script.event),
    Script.main script_params [] = (calls, Ok tt) /\
    calls !! 0%nat = Some (Script.Plot x_rk4 y_rk4 "Runge-Kutta Method") /\
    calls !! 4%nat = Some (Script.Plot x_cdf y_cdf "Central Difference Method") /\
    calls !! 11%nat = Some Script.Show.
Proof.
  destruct (X13_main_plots script_params [])
    as (xr & yr & xc & yc & _ & _ & Hmain).
  - simpl. lra.
  - simpl. lia.
  - eexists xr, yr, xc, yc, _. split; [exact Hmain|].
    repeat split; reflexivity.
Defined.

(** X14.  [main] passes a solver's exception on.  With a zero RK4 step it
    raises [ZeroDivisionError] before any plotting call; with a non-zero
    step and [N < 2] the central-difference solver raises after the RK4
    curve has been drawn once, and [main] stops there with that exception,
    never reaching the figure or the show. *)
Theorem X14_main_failures (p : params) (calls : list Script.event) :
  (dx p = 0 -> Script.main p calls = (calls, Raise ZeroDivisionError)) /\
  (dx p <> 0 -> (N p < 2)%Z ->
     exists (x_rk4 : vec) (y_rk4 : list R) (e : error),
       beam_deflection_rk4 p = Ok (x_rk4, y_rk4) /\
       beam_deflection_central_difference p = Raise e /\
       Script.main p calls
       = (calls ++ [Script.Plot x_rk4 y_rk4 "Runge-Kutta Method"], Raise e)).
Proof.
  split.
  - intros Hdx. unfold Script.main, Script.io_bind, Script.run.
    assert (beam_deflection_rk4 p = Raise ZeroDivisionError) as ->; [|done].
    unfold beam_deflection_rk4, arange. by destruct (Req_EM_T (dx p) 0).
  - intros Hdx HN.
    destruct (Entry.rk4_curve p Hdx) as (xr & yr & Hrk & Lr).
    destruct (Discrete.tiny_grid_raises p HN) as (e & He & _).
    exists xr, yr, e. split; [done|]. split; [done|].
    unfold Script.main, Script.io_bind, Script.run.
    rewrite Hrk, He. by rewrite Entry.plot_deflection_ok by done.
Qed.
